(** * Streaming dispatch core: element sequencer and context stream handler

    A shallow embedding of [handleStream] and [createContextStreamHandler]
    (the stream-handling module of the agent core).

    - The parser ([xmlStreamParser]) is an external collaborator: the model
      takes the structural events it yields for each chunk as input.
    - [StackElement] objects are heap allocated and passed by reference; the
      model keeps them in a [heap] indexed by allocation order, so that an
      element has an identity that does not depend on the value of its
      fields.
    - JavaScript numbers are modelled as integers ([Z]); the model does not
      cover counters beyond the range in which doubles are exact. *)

From stdpp Require Import gmap strings list fin_maps.
From Stdlib Require Import ZArith Lia.

(** ** Data model of the element sequencer *)

(** [StackElement]: [{index, tag, attributes, content, done}]. *)
Record StackElement := mkStackElement {
  el_index : Z;
  el_tag : string;
  el_attributes : gmap string string;
  el_content : list string;
  el_done : bool;
}.

(** [{...el, done: d}] *)
Definition with_done (el : StackElement) (d : bool) : StackElement :=
  {| el_index := el_index el; el_tag := el_tag el;
     el_attributes := el_attributes el; el_content := el_content el;
     el_done := d |}.

(** The element after its content array has been replaced by [c]. *)
Definition with_content (el : StackElement) (c : list string) : StackElement :=
  {| el_index := el_index el; el_tag := el_tag el;
     el_attributes := el_attributes el; el_content := c;
     el_done := el_done el |}.

(** [el.content.push(txt)] *)
Definition push_content (el : StackElement) (txt : string) : StackElement :=
  with_content el (el_content el ++ [txt]).

(** The values yielded by the parser: [result.value.type] is one of
    ["start"], ["end"], ["text"]. *)
Inductive ParserEvent :=
  | EvStart (name : string) (attrs : gmap string string)
  | EvEnd
  | EvText (content : string).

(** The closure state of [handleStream]: the objects allocated so far
    ([heap], by allocation order), [current] and [stack] holding references
    into it, and the running counter [index] (here [next_index]). *)
Record StreamState := mkStreamState {
  heap : list StackElement;
  current : option nat;
  stack : list nat;
  next_index : Z;
}.

Definition init_stream (initialIndex : Z) : StreamState :=
  {| heap := []; current := None; stack := []; next_index := initialIndex |}.

(** One invocation of the callback [fn]: the element it is about (its
    reference) and the fields of the object that is passed. *)
Definition Invocation : Type := nat * StackElement.

(** The body of the [while] loop of [handleChunk] for one parser event.
    Returns the new closure state and the callback invocation, if any.
    [stack.push] appends at the end of the array and [stack.pop] removes
    the last entry ([undefined] on an empty array). *)
Definition handleEvent (ev : ParserEvent) (s : StreamState)
  : StreamState * option Invocation :=
  match ev with
  | EvStart name attrs =>
      let el := {| el_index := next_index s; el_tag := name;
                   el_attributes := attrs; el_content := [];
                   el_done := false |} in
      let l := length (heap s) in
      ({| heap := heap s ++ [el];
          current := Some l;
          stack := match current s with
                   | Some c => stack s ++ [c]
                   | None => stack s
                   end;
          next_index := (next_index s + 1)%Z |},
       Some (l, el))
  | EvEnd =>
      ({| heap := heap s;
          current := last (stack s);
          stack := removelast (stack s);
          next_index := next_index s |},
       match current s with
       | Some c => (λ el, (c, with_done el true)) <$> heap s !! c
       | None => None
       end)
  | EvText txt =>
      match current s with
      | Some c =>
          match heap s !! c with
          | Some el =>
              let el' := push_content el txt in
              ({| heap := <[c := el']> (heap s);
                  current := current s;
                  stack := stack s;
                  next_index := next_index s |},
               Some (c, el'))
          | None => (s, None)
          end
      | None => (s, None)
      end
  end.

(** [handleChunk] with the callback's effect on a state of type [S]
    threaded through: the events of one chunk are processed in order and
    the callback runs synchronously for each of them. *)
Definition handleChunk {S : Type} (fn : StackElement → S → S)
    (evs : list ParserEvent) (st : StreamState * S) : StreamState * S :=
  foldl (λ acc ev,
           let '(s', cb) := handleEvent ev (fst acc) in
           (s', match cb with
                | Some (_, el) => fn el (snd acc)
                | None => snd acc
                end))
        st evs.


(** The same loop with the callback replaced by a recorder: the list of
    callback invocations, in order. *)
Definition feed (acc : StreamState * list Invocation) (ev : ParserEvent)
  : StreamState * list Invocation :=
  let '(s', cb) := handleEvent ev (fst acc) in
  (s', snd acc ++ option_list cb).

Definition callbacks (evs : list ParserEvent) (initialIndex : Z)
  : StreamState * list Invocation :=
  foldl feed (init_stream initialIndex, []) evs.

(** ** Vocabulary for the properties of the sequencer *)

(** The elements that are open after a sequence of callback invocations,
    read off the invocations alone, oldest first: a not-done invocation
    opens its element if it is not open, a done invocation closes it. *)
Definition open_step (acc : list nat) (i : Invocation) : list nat :=
  if el_done (snd i) then filter (λ x, x ≠ fst i) acc
  else if bool_decide (fst i ∈ acc) then acc
  else acc ++ [fst i].

Definition open_after (calls : list Invocation) : list nat :=
  foldl open_step [] calls.

(** The objects the callback received for element [l], in order. *)
Definition calls_for (l : nat) (calls : list Invocation) : list StackElement :=
  snd <$> filter (λ i, fst i = l) calls.

(** The not-done updates of an element whose content has reached
    [el_content el]: one at creation (no content yet) and one after each
    fragment. *)
Definition updates_of (el : StackElement) : list StackElement :=
  (λ k, with_content el (take k (el_content el)))
    <$> seq 0 (S (length (el_content el))).

(** Example inputs: an element that is opened and never closed, and one
    that receives a fragment and is closed. *)
Definition unterminated_think : list ParserEvent :=
  [EvStart "think" ∅].

Definition closed_think : list ParserEvent :=
  [EvStart "think" ∅; EvText "hello"; EvEnd].

(** ** Data model of the context stream handler *)

(** The value of [log.ref]. *)
Inductive RefKind := RThought | RActionCall | RActionResult | ROutput.

#[global] Instance RefKind_eq_dec : EqDecision RefKind.
Proof. solve_decision. Defined.

(** The [data] field of a record: absent, the trimmed text of an output
    element, the object [{error: s}] (with [s] a string, or [undefined]
    when [JSON.stringify] returned that), or any other value (kept
    opaque). *)
Inductive Data :=
  | DataUndefined
  | DataText (s : string)
  | DataError (serialized : option string)
  | DataValue (v : string).

(** What [logsByIndex] stores: [{id, timestamp, processed, ref}]. *)
Record PartialLog := mkPartialLog {
  pl_id : nat;
  pl_timestamp : Z;
  pl_processed : bool;
  pl_ref : RefKind;
}.

(** A log record as a JavaScript object: the fields common to every
    record and the optional ones ([None] is [undefined]). *)
Record Log := mkLog {
  log_ref : RefKind;
  log_id : nat;
  log_timestamp : Z;
  log_processed : bool;
  log_content : option string;
  log_name : option string;
  log_callId : option nat;
  log_type : option string;
  log_data : Data;
}.

(** A thrown value or rejection reason: any JavaScript value, kept
    opaque and told apart by a label. *)
Definition Err : Type := string.

(** What the handler does to the outside world, in order: logger calls,
    hooks, and calls of the external collaborators. *)
Inductive Effect :=
  | LoggerDebug (category message : string)
  | LoggerError (category message : string)
  | OnThinking (log : Log)
  | OnLogStream (log : Log) (done : bool)
  | CallPrepareActionCall (call : Log)
  | CallHandleActionCall (call : Log) (action : string)
  | CallHandleOutput (outputRef : Log)
  | CallGenerateEpisode (thought call result : Log).

(** Work that is suspended on a promise of an external collaborator. *)
Inductive Task :=
  | TPrepare (call : Log)     (* handleActionCallStream at [await prepareActionCall] *)
  | TExec (call : Log)        (* the promise of [handleActionCall], in [actionCalls] *)
  | TOutput (outputRef : Log) (* handleOutputStream at [await handleOutput] *)
  | TEpisode.                 (* the promise of [generateEpisode] *)

(** How such a promise settles. *)
Inductive Outcome :=
  | Prepared (action : string)  (* prepareActionCall resolved with [{action}] *)
  | Returned (res : Log)        (* handleActionCall resolved with a result *)
  | Refs (refs : list Log)      (* handleOutput resolved; a single ref is a list of one *)
  | Completed                   (* generateEpisode resolved *)
  | Rejected (err : Err).

Record WorkingMemory := mkWorkingMemory {
  wm_thoughts : list Log;
  wm_calls : list Log;
  wm_results : list Log;
  wm_outputs : list Log;
}.

(** Everything [createContextStreamHandler] closes over, together with the
    environment it reads: [state] ([state_index], [logsByIndex]), [chain],
    [workingMemory], [actionCalls] (promises, by task number),
    [abortSignal.aborted], [agent.memory.generateMemories], the number of
    identifiers drawn and of clock reads, the effects so far, the
    suspended work, the values the promises of [actionCalls] have
    resolved with, and the promises of [actionCalls] that have rejected. *)
Record Ctx := mkCtx {
  state_index : Z;
  logsByIndex : gmap Z PartialLog;
  chain : list Log;
  workingMemory : WorkingMemory;
  actionCalls : list nat;
  aborted : bool;
  generateMemories : bool;
  uuids : nat;
  ticks : nat;
  effects : list Effect;
  pending : gmap nat Task;
  next_task : nat;
  fulfilled : gmap nat Log;
  rejected : gset nat;
}.

Definition init_ctx (gen : bool) : Ctx :=
  {| state_index := 0; logsByIndex := ∅; chain := [];
     workingMemory := mkWorkingMemory [] [] [] [];
     actionCalls := []; aborted := false; generateMemories := gen;
     uuids := 0; ticks := 0; effects := []; pending := ∅; next_task := 0;
     fulfilled := ∅; rejected := ∅ |}.

(** *** Elementary updates of the context *)

Definition set_state_index (z : Z) (c : Ctx) : Ctx :=
  mkCtx z (logsByIndex c) (chain c) (workingMemory c) (actionCalls c)
        (aborted c) (generateMemories c) (uuids c) (ticks c) (effects c)
        (pending c) (next_task c) (fulfilled c) (rejected c).

(** [state.logsByIndex.set(index, r)] where [r] was built with one call of
    [randomUUIDv7()] and one of [Date.now()]. *)
Definition store_ref (index : Z) (r : PartialLog) (c : Ctx) : Ctx :=
  mkCtx (state_index c) (<[index := r]> (logsByIndex c)) (chain c)
        (workingMemory c) (actionCalls c) (aborted c) (generateMemories c)
        (S (uuids c)) (S (ticks c)) (effects c) (pending c) (next_task c)
        (fulfilled c) (rejected c).

(** [chain.push(log)] *)
Definition chain_push (log : Log) (c : Ctx) : Ctx :=
  mkCtx (state_index c) (logsByIndex c) (chain c ++ [log]) (workingMemory c)
        (actionCalls c) (aborted c) (generateMemories c) (uuids c) (ticks c)
        (effects c) (pending c) (next_task c) (fulfilled c) (rejected c).

Definition set_workingMemory (wm : WorkingMemory) (c : Ctx) : Ctx :=
  mkCtx (state_index c) (logsByIndex c) (chain c) wm (actionCalls c)
        (aborted c) (generateMemories c) (uuids c) (ticks c) (effects c)
        (pending c) (next_task c) (fulfilled c) (rejected c).

(** [workingMemory.thoughts.push(log)] and its three siblings. *)
Definition thoughts_push (log : Log) (c : Ctx) : Ctx :=
  let wm := workingMemory c in
  set_workingMemory
    (mkWorkingMemory (wm_thoughts wm ++ [log]) (wm_calls wm) (wm_results wm)
                     (wm_outputs wm)) c.

Definition calls_push (log : Log) (c : Ctx) : Ctx :=
  let wm := workingMemory c in
  set_workingMemory
    (mkWorkingMemory (wm_thoughts wm) (wm_calls wm ++ [log]) (wm_results wm)
                     (wm_outputs wm)) c.

Definition results_push (log : Log) (c : Ctx) : Ctx :=
  let wm := workingMemory c in
  set_workingMemory
    (mkWorkingMemory (wm_thoughts wm) (wm_calls wm) (wm_results wm ++ [log])
                     (wm_outputs wm)) c.

Definition outputs_push (log : Log) (c : Ctx) : Ctx :=
  let wm := workingMemory c in
  set_workingMemory
    (mkWorkingMemory (wm_thoughts wm) (wm_calls wm) (wm_results wm)
                     (wm_outputs wm ++ [log])) c.

(** A logger call, a hook call or a call of a collaborator. *)
Definition emit (e : Effect) (c : Ctx) : Ctx :=
  mkCtx (state_index c) (logsByIndex c) (chain c) (workingMemory c)
        (actionCalls c) (aborted c) (generateMemories c) (uuids c) (ticks c)
        (effects c ++ [e]) (pending c) (next_task c) (fulfilled c) (rejected c).

(** A promise is created and work is left waiting for it. *)
Definition spawn (t : Task) (c : Ctx) : Ctx :=
  mkCtx (state_index c) (logsByIndex c) (chain c) (workingMemory c)
        (actionCalls c) (aborted c) (generateMemories c) (uuids c) (ticks c)
        (effects c) (<[next_task c := t]> (pending c)) (S (next_task c))
        (fulfilled c) (rejected c).

(** The promise of task [k] has settled. *)
Definition retire (k : nat) (c : Ctx) : Ctx :=
  mkCtx (state_index c) (logsByIndex c) (chain c) (workingMemory c)
        (actionCalls c) (aborted c) (generateMemories c) (uuids c) (ticks c)
        (effects c) (delete k (pending c)) (next_task c) (fulfilled c)
        (rejected c).

(** [actionCalls.push(promise)] for the promise of task [k]. *)
Definition actionCalls_push (k : nat) (c : Ctx) : Ctx :=
  mkCtx (state_index c) (logsByIndex c) (chain c) (workingMemory c)
        (actionCalls c ++ [k]) (aborted c) (generateMemories c) (uuids c)
        (ticks c) (effects c) (pending c) (next_task c) (fulfilled c)
        (rejected c).

(** The promise of task [k] resolves with [v]. *)
Definition fulfil (k : nat) (v : Log) (c : Ctx) : Ctx :=
  mkCtx (state_index c) (logsByIndex c) (chain c) (workingMemory c)
        (actionCalls c) (aborted c) (generateMemories c) (uuids c) (ticks c)
        (effects c) (pending c) (next_task c) (<[k := v]> (fulfilled c))
        (rejected c).

(** The promise of task [k] rejects. *)
Definition reject (k : nat) (c : Ctx) : Ctx :=
  mkCtx (state_index c) (logsByIndex c) (chain c) (workingMemory c)
        (actionCalls c) (aborted c) (generateMemories c) (uuids c) (ticks c)
        (effects c) (pending c) (next_task c) (fulfilled c)
        ({[k]} ∪ rejected c).

(** One more identifier has been used. *)
Definition used_uuid (c : Ctx) : Ctx :=
  mkCtx (state_index c) (logsByIndex c) (chain c) (workingMemory c)
        (actionCalls c) (aborted c) (generateMemories c) (S (uuids c))
        (ticks c) (effects c) (pending c) (next_task c) (fulfilled c)
        (rejected c).

(** One more identifier and one more clock read have been used. *)
Definition used_uuid_and_clock (c : Ctx) : Ctx :=
  mkCtx (state_index c) (logsByIndex c) (chain c) (workingMemory c)
        (actionCalls c) (aborted c) (generateMemories c) (S (uuids c))
        (S (ticks c)) (effects c) (pending c) (next_task c) (fulfilled c)
        (rejected c).

(** The abort signal fires. *)
Definition abort (c : Ctx) : Ctx :=
  mkCtx (state_index c) (logsByIndex c) (chain c) (workingMemory c)
        (actionCalls c) true (generateMemories c) (uuids c) (ticks c)
        (effects c) (pending c) (next_task c) (fulfilled c) (rejected c).

(** The same context with the signal not (or not yet) fired. *)
Definition not_aborted (c : Ctx) : Ctx :=
  mkCtx (state_index c) (logsByIndex c) (chain c) (workingMemory c)
        (actionCalls c) false (generateMemories c) (uuids c) (ticks c)
        (effects c) (pending c) (next_task c) (fulfilled c) (rejected c).

(** The same context with [agent.memory.generateMemories] set to [g]. *)
Definition with_generateMemories (g : bool) (c : Ctx) : Ctx :=
  mkCtx (state_index c) (logsByIndex c) (chain c) (workingMemory c)
        (actionCalls c) (aborted c) g (uuids c) (ticks c)
        (effects c) (pending c) (next_task c) (fulfilled c) (rejected c).

(** The same context with [t] waiting as task [k]. *)
Definition with_pending (k : nat) (t : Task) (c : Ctx) : Ctx :=
  mkCtx (state_index c) (logsByIndex c) (chain c) (workingMemory c)
        (actionCalls c) (aborted c) (generateMemories c) (uuids c) (ticks c)
        (effects c) (<[k := t]> (pending c)) (next_task c) (fulfilled c)
        (rejected c).

(** ** Vocabulary for the properties of a session *)

(** [c'] holds everything the chain and the four sequences of the working
    memory held in [c], in the same order, possibly followed by more. *)
Definition append_only (c c' : Ctx) : Prop :=
  chain c `prefix_of` chain c'
  ∧ wm_thoughts (workingMemory c) `prefix_of` wm_thoughts (workingMemory c')
  ∧ wm_calls (workingMemory c) `prefix_of` wm_calls (workingMemory c')
  ∧ wm_results (workingMemory c) `prefix_of` wm_results (workingMemory c')
  ∧ wm_outputs (workingMemory c) `prefix_of` wm_outputs (workingMemory c').

(** The working memory with [log] appended to the sequence of its kind:
    the branches of [pushLogStream] on [log.ref]. Outputs are appended by
    [handleOutputStream], not by [pushLogStream]. *)
Definition committed_to (log : Log) (wm : WorkingMemory) : WorkingMemory :=
  match log_ref log with
  | RThought =>
      mkWorkingMemory (wm_thoughts wm ++ [log]) (wm_calls wm)
                      (wm_results wm) (wm_outputs wm)
  | RActionCall =>
      mkWorkingMemory (wm_thoughts wm) (wm_calls wm ++ [log])
                      (wm_results wm) (wm_outputs wm)
  | RActionResult =>
      mkWorkingMemory (wm_thoughts wm) (wm_calls wm)
                      (wm_results wm ++ [log]) (wm_outputs wm)
  | ROutput => wm
  end.

(** [defaultTags], the tag set handed back by [createContextStreamHandler]
    for the parser. *)
Definition defaultTags : gset string :=
  list_to_set ["think"; "response"; "output"; "action_call"; "reasoning"].

(** Every waiting task has a number below the next one to be given out. *)
Definition tasks_fresh (c : Ctx) : Prop :=
  ∀ k t, pending c !! k = Some t → k < next_task c.


(** [c'] comes from [c] by leaving the tracked promises and their values
    alone and by adding waiting work under new numbers only. *)
Definition tasks_grow (c c' : Ctx) : Prop :=
  actionCalls c' = actionCalls c
  ∧ fulfilled c' = fulfilled c
  ∧ rejected c' = rejected c
  ∧ next_task c ≤ next_task c'
  ∧ (∀ k, k < next_task c → pending c' !! k = pending c !! k)
  ∧ (tasks_fresh c → tasks_fresh c').



(** Event sequences in which every start event has its end event:
    text, and complete elements whose body is again such a sequence. *)
Inductive balanced : list ParserEvent → Prop :=
  | balanced_nil : balanced []
  | balanced_text txt evs :
      balanced evs → balanced (EvText txt :: evs)
  | balanced_element name attrs body evs :
      balanced body → balanced evs →
      balanced (EvStart name attrs :: body ++ EvEnd :: evs).

(** ** The command-line extension *)

(** One call of [send] by the [cli:message] input: the [user] of the
    context arguments, and the [user] and [text] of the data. *)
Record Sent := mkSent {
  sent_context_user : string;
  sent_user : string;
  sent_text : string;
}.

(** The loop of [subscribe]. Each entry of [answers] is one resolved
    [rl.question]: the line that was read, and whether the unsubscribe
    function (which aborts the controller) was called while the loop was
    waiting for it. The signal is tested at the head of the loop only,
    so a line that arrives after the abort is still handled. *)
Fixpoint subscribe_loop (answers : list (string * bool)) : list Sent :=
  match answers with
  | [] => []
  | (question, unsubscribed) :: rest =>
      if bool_decide (question = "exit") then []
      else mkSent "admin" "admin" question
             :: (if unsubscribed then [] else subscribe_loop rest)
  end.

(** The records of one kind, in the order of the list. *)
Definition of_kind (kind : RefKind) (logs : list Log) : list Log :=
  filter (λ log, log_ref log = kind) logs.

(** The working memory mirrors the chain: its thoughts, calls and results
    are the records of that kind of the chain, in the same order, and its
    outputs occur in the chain in the same order. *)
Definition mirrors (c : Ctx) : Prop :=
  of_kind RThought (chain c) = wm_thoughts (workingMemory c)
  ∧ of_kind RActionCall (chain c) = wm_calls (workingMemory c)
  ∧ of_kind RActionResult (chain c) = wm_results (workingMemory c)
  ∧ wm_outputs (workingMemory c) `sublist_of` chain c.

(** Whether a parser event is a start event. *)
Definition is_start (ev : ParserEvent) : bool :=
  match ev with
  | EvStart _ _ => true
  | _ => false
  end.

(** ** The context stream handler *)

Section ContextStreamHandler.

(** Built-ins and the clock: [Date.now()] as a function of the number of
    earlier reads, [JSON.stringify], and [String.prototype.trim].
    [JSON.stringify] throws on some values (a circular structure, a
    BigInt): [None]; it returns [undefined] on others (a function,
    [undefined]): [Some None]; otherwise it returns a string. *)
Variable Date_now : nat → Z.
Variable JSON_stringify : Err → option (option string).
Variable trim : string → string.

(** [getOrCreateRef(index, {ref})]: allocate on first use, then return the
    stored object. *)
Definition getOrCreateRef (index : Z) (ref : RefKind) (c : Ctx)
  : PartialLog * Ctx :=
  match logsByIndex c !! index with
  | Some r => (r, c)
  | None =>
      let r := {| pl_id := uuids c; pl_timestamp := Date_now (ticks c);
                  pl_processed := false; pl_ref := ref |} in
      (r, store_ref index r c)
  end.

(** The second half of the [action_result] branch of [pushLogStream]: look
    up the last thought and the last call and start episode generation. *)
Definition episodeTrigger (log : Log) (c : Ctx) : Ctx :=
  match last (wm_thoughts (workingMemory c)),
        last (wm_calls (workingMemory c)) with
  | Some lastThought, Some lastActionCall =>
      if generateMemories c
      then spawn TEpisode
             (emit (CallGenerateEpisode lastThought lastActionCall log) c)
      else c
  | _, _ => c
  end.

(** [pushLogStream(log, done)] *)
Definition pushLogStream (log : Log) (done : bool) (c : Ctx) : Ctx :=
  let c := if done then chain_push log c else c in
  let c := if bool_decide (log_ref log = RThought) && done
           then emit (OnThinking log)
                  (emit (LoggerDebug "agent:think" "thought")
                     (thoughts_push log c))
           else c in
  let c := if bool_decide (log_ref log = RActionCall) && done
           then calls_push log c
           else c in
  let c := if bool_decide (log_ref log = RActionResult) && done
           then episodeTrigger log (results_push log c)
           else c in
  emit (OnLogStream log done) c.

(** [handleActionCallStream(call, done)] up to its [await]. *)
Definition handleActionCallStream (call : Log) (done : bool) (c : Ctx) : Ctx :=
  if negb done then pushLogStream call false c
  else spawn (TPrepare call) (emit (CallPrepareActionCall call) c).

(** [handleActionCallStream] from the point where [prepareActionCall] has
    resolved with [action]. *)
Definition handleActionCallStream_resumed (call : Log) (action : string)
    (c : Ctx) : Ctx :=
  if aborted c then c
  else
    let c := pushLogStream call true c in
    let c := emit (CallHandleActionCall call action) c in
    let k := next_task c in
    actionCalls_push k (spawn (TExec call) c).

(** The result built by the [.catch] handler when [JSON.stringify(err)]
    has returned [serialized]. *)
Definition error_result (call : Log) (serialized : option string) (c : Ctx)
  : Log :=
  {| log_ref := RActionResult;
     log_id := uuids c;
     log_callId := Some (log_id call);
     log_data := DataError serialized;
     log_name := log_name call;
     log_timestamp := Date_now (ticks c);
     log_processed := false;
     log_content := None;
     log_type := None |}.

(** The [.catch(...).then(...)] chain on the promise of [handleActionCall],
    which is task [k]. Both handlers are taken as one step. In the
    [.catch] handler the object literal is evaluated in order: the
    identifier is drawn, then [JSON.stringify(err)] is called; when that
    throws, the handler throws, the promise rejects, the [.then] handler
    (and with it [pushLogStream]) is skipped, and the promise that was
    pushed to [actionCalls] is a rejected one. *)
Definition actionCall_settled (k : nat) (call : Log) (o : Outcome) (c : Ctx)
  : option Ctx :=
  match o with
  | Returned res => Some (fulfil k res (pushLogStream res true c))
  | Rejected err =>
      match JSON_stringify err with
      | Some serialized =>
          let result := error_result call serialized c in
          Some (fulfil k result
                  (pushLogStream result true (used_uuid_and_clock c)))
      | None => Some (reject k (used_uuid c))
      end
  | _ => None
  end.

(** [handleOutputStream(outputRef, done)] up to its [await]. *)
Definition handleOutputStream (outputRef : Log) (done : bool) (c : Ctx) : Ctx :=
  if negb done then pushLogStream outputRef false c
  else spawn (TOutput outputRef) (emit (CallHandleOutput outputRef) c).

(** The loop over the refs returned by [handleOutput]. *)
Definition handleOutputStream_resumed (refs : list Log) (c : Ctx) : Ctx :=
  foldl (λ c ref,
           pushLogStream ref true
             (outputs_push ref
                (emit (LoggerDebug "agent:output" "Output processed status") c)))
        c refs.

(** The records the handler builds from a stored ref and an element. *)
Definition thought_record (ref : PartialLog) (el : StackElement) : Log :=
  {| log_ref := pl_ref ref; log_id := pl_id ref;
     log_timestamp := pl_timestamp ref; log_processed := pl_processed ref;
     log_content := Some (String.concat "" (el_content el));
     log_name := None; log_callId := None; log_type := None;
     log_data := DataUndefined |}.

Definition call_record (ref : PartialLog) (el : StackElement) : Log :=
  {| log_ref := pl_ref ref; log_id := pl_id ref;
     log_timestamp := pl_timestamp ref; log_processed := pl_processed ref;
     log_name := el_attributes el !! "name";
     log_content := Some (String.concat "" (el_content el));
     log_data := DataUndefined;
     log_callId := None; log_type := None |}.

Definition output_record (ref : PartialLog) (el : StackElement) : Log :=
  {| log_ref := pl_ref ref; log_id := pl_id ref;
     log_timestamp := pl_timestamp ref; log_processed := pl_processed ref;
     log_type := el_attributes el !! "type";
     log_data := DataText (trim (String.concat "" (el_content el)));
     log_content := None; log_name := None; log_callId := None |}.

(** [!v] for an attribute value: [undefined] and the empty string are
    falsy. *)
Definition falsy (v : option string) : bool :=
  match v with
  | None => true
  | Some s => bool_decide (s = "")
  end.

(** [handler(el)] *)
Definition handler (el : StackElement) (c : Ctx) : Ctx :=
  if aborted c then c
  else
    let c := set_state_index (Z.max (el_index el) (state_index c)) c in
    if bool_decide (el_tag el = "think") || bool_decide (el_tag el = "reasoning")
    then
      let '(ref, c) := getOrCreateRef (el_index el) RThought c in
      pushLogStream (thought_record ref el) (el_done el) c
    else if bool_decide (el_tag el = "action_call") then
      let '(ref, c) := getOrCreateRef (el_index el) RActionCall c in
      handleActionCallStream (call_record ref el) (el_done el) c
    else if bool_decide (el_tag el = "output") then
      let '(ref, c) := getOrCreateRef (el_index el) ROutput c in
      if falsy (el_attributes el !! "type")
      then emit (LoggerError "agent:output" "Missing output type attribute") c
      else handleOutputStream (output_record ref el) (el_done el) c
    else c.

(** ** The session: parse loop, abort signal and settling promises *)

(** What happens when the promise task [t] (number [k]) waits for settles
    with [o]; [None] when [o] is not a possible outcome of that promise. *)
Definition resume (k : nat) (t : Task) (o : Outcome) (c : Ctx) : option Ctx :=
  match t, o with
  | TPrepare call, Prepared action =>
      Some (handleActionCallStream_resumed call action c)
  | TPrepare _, Rejected _ => Some c
  | TExec call, _ => actionCall_settled k call o c
  | TOutput _, Refs refs => Some (handleOutputStream_resumed refs c)
  | TOutput _, Rejected _ => Some c
  | TEpisode, Completed => Some c
  | TEpisode, Rejected _ =>
      Some (emit (LoggerError "agent:generateEpisode"
                              "Failed to generate episode") c)
  | _, _ => None
  end.

Definition Session : Type := StreamState * Ctx.

(** The turns of the event loop: a chunk arrives and [handleChunk] runs to
    completion with [handler] as the callback; the abort signal fires; the
    promise of a waiting task settles and its continuation runs. *)
Inductive Step :=
  | Chunk (evs : list ParserEvent)
  | Abort
  | Settle (k : nat) (o : Outcome).

Definition step (s : Session) (st : Step) : option Session :=
  match st with
  | Chunk evs => Some (handleChunk handler evs s)
  | Abort => Some (fst s, abort (snd s))
  | Settle k o =>
      match pending (snd s) !! k with
      | Some t => (λ c, (fst s, c)) <$> resume k t o (retire k (snd s))
      | None => None
      end
  end.

Definition run (steps : list Step) (s : Session) : option Session :=
  foldl (λ acc st, acc ≫= (λ s, step s st)) (Some s) steps.

(** The records the handler itself hands on in one effect: to the hooks
    or to a collaborator. *)
Definition record_of (e : Effect) : option Log :=
  match e with
  | OnThinking log | OnLogStream log _ => Some log
  | CallPrepareActionCall call => Some call
  | CallHandleOutput outputRef => Some outputRef
  | _ => None
  end.


(** The record that a callback invocation with element [el] commits to
    the chain before the handler returns, read off the final context [c]:
    the thought of a done [think] or [reasoning] element, with the ref
    stored for its index. *)
Definition committed_thought (c : Ctx) (el : StackElement) : option Log :=
  if el_done el
     && (bool_decide (el_tag el = "think")
         || bool_decide (el_tag el = "reasoning"))
  then (λ ref, thought_record ref el) <$> logsByIndex c !! el_index el
  else None.

(** ** Example data *)

Definition example_thought : Log :=
  mkLog RThought 0 0 false (Some "plan") None None None DataUndefined.

Definition example_call : Log :=
  mkLog RActionCall 1 0 false (Some "{}") (Some "foo") None None DataUndefined.

Definition example_result : Log :=
  mkLog RActionResult 2 0 false None (Some "foo") (Some 1) None (DataValue "ok").

(** A context whose working memory holds one thought and one call. *)
Definition memory_with_cycle (gen : bool) : Ctx :=
  set_workingMemory (mkWorkingMemory [example_thought] [example_call] [] [])
                    (init_ctx gen).

(** One chunk that holds a complete [action_call] element followed by a
    complete [think] element. *)
Definition call_then_thought : list ParserEvent :=
  [EvStart "action_call" ({["name" := "foo"]} : gmap string string);
   EvText "{}"; EvEnd;
   EvStart "think" ∅; EvText "done"; EvEnd].

(** A chunk with a complete [action_call] element, and a later chunk with
    a complete [think] element. *)
Definition call_only : list ParserEvent :=
  [EvStart "action_call" ({["name" := "foo"]} : gmap string string); EvEnd].

Definition late_thought : list ParserEvent :=
  [EvStart "think" ∅; EvText "late"; EvEnd].

(** Stand-ins for the clock and the built-ins in the examples. *)
Definition demo_clock (n : nat) : Z := (1000 + Z.of_nat n)%Z.
Definition demo_stringify (e : Err) : option (option string) :=
  if bool_decide (e = "circular") then None else Some (Some e).
Definition demo_trim (s : string) : string := s.

(** A session in which a call is prepared and executed, and a call that
    is still being executed when the session is looked at. *)
Definition demo_session : list Step :=
  [Chunk call_then_thought; Settle 0 (Prepared "foo");
   Settle 1 (Returned example_result); Chunk late_thought].


(** A [think] element nested in a [response] element, with text around. *)
Definition nested_think : list ParserEvent :=
  [EvStart "think" ∅; EvText "b"; EvEnd; EvText "c"].

Definition response_open : list ParserEvent :=
  [EvStart "response" ∅; EvText "a"].

Definition response_element : StackElement :=
  mkStackElement 3 "response" ∅ ["hi"] false.

Definition think_elements : list StackElement :=
  [mkStackElement 2 "think" ∅ [] false;
   mkStackElement 5 "output" ∅ ["x"] true;
   mkStackElement 3 "reasoning" ∅ ["y"] true].

(** ** Properties of the commit path *)

Ltac decide_refs :=
  repeat first [ rewrite bool_decide_eq_true_2 by done
               | rewrite bool_decide_eq_false_2 by done ].

Ltac push_cases log :=
  unfold pushLogStream, episodeTrigger; destruct (log_ref log) eqn:?;
  decide_refs; cbn.

Ltac trigger_cases c :=
  destruct (last (wm_thoughts (workingMemory c))),
           (last (wm_calls (workingMemory c)));
  destruct (generateMemories c) eqn:?.

Lemma pushLogStream_partial (log : Log) (c : Ctx) :
  pushLogStream log false c = emit (OnLogStream log false) c.
Proof.
  unfold pushLogStream. by rewrite !andb_false_r.
Qed.

Lemma pushLogStream_chain (log : Log) (c : Ctx) :
  chain (pushLogStream log true c) = chain c ++ [log].
Proof.
  push_cases log; try done.
  trigger_cases c; done.
Qed.

Lemma pushLogStream_outputs (log : Log) (c : Ctx) :
  wm_outputs (workingMemory (pushLogStream log true c))
  = wm_outputs (workingMemory c).
Proof.
  push_cases log; try done.
  trigger_cases c; done.
Qed.

Lemma pushLogStream_workingMemory (log : Log) (c : Ctx) :
  workingMemory (pushLogStream log true c)
  = let wm := workingMemory c in
    match log_ref log with
    | RThought =>
        mkWorkingMemory (wm_thoughts wm ++ [log]) (wm_calls wm)
                        (wm_results wm) (wm_outputs wm)
    | RActionCall =>
        mkWorkingMemory (wm_thoughts wm) (wm_calls wm ++ [log])
                        (wm_results wm) (wm_outputs wm)
    | RActionResult =>
        mkWorkingMemory (wm_thoughts wm) (wm_calls wm)
                        (wm_results wm ++ [log]) (wm_outputs wm)
    | ROutput => wm
    end.
Proof.
  push_cases log; try done.
  trigger_cases c; done.
Qed.

Lemma handleOutputStream_resumed_snoc (refs : list Log) (ref : Log) (c : Ctx) :
  handleOutputStream_resumed (refs ++ [ref]) c
  = pushLogStream ref true
      (outputs_push ref
         (emit (LoggerDebug "agent:output" "Output processed status")
            (handleOutputStream_resumed refs c))).
Proof. unfold handleOutputStream_resumed. by rewrite foldl_snoc. Qed.

Lemma handleOutputStream_resumed_commit (refs : list Log) (c : Ctx) :
  chain (handleOutputStream_resumed refs c) = chain c ++ refs
  ∧ wm_outputs (workingMemory (handleOutputStream_resumed refs c))
    = wm_outputs (workingMemory c) ++ refs.
Proof.
  induction refs as [|ref refs [IHc IHo]] using rev_ind.
  - by rewrite !app_nil_r.
  - rewrite handleOutputStream_resumed_snoc, pushLogStream_chain,
      pushLogStream_outputs. cbn. rewrite IHc, IHo.
    by rewrite !app_assoc.
Qed.

(** One call of [pushLogStream]. With [done = false] it only invokes the
    [onLogStream] hook: the chain, the working memory and everything else
    in the context are as before. With [done = true] it appends the record
    once at the end of the chain and once at the end of the working-memory
    sequence of its kind (thoughts, calls or results); the refs of an
    output element are each appended once to the chain and once to the
    outputs of the working memory by the loop of [handleOutputStream]. *)
Lemma pushLogStream_commit (log : Log) (refs : list Log) (c : Ctx) :
  pushLogStream log false c = emit (OnLogStream log false) c
  ∧ chain (pushLogStream log false c) = chain c
  ∧ workingMemory (pushLogStream log false c) = workingMemory c
  ∧ effects (pushLogStream log false c) = effects c ++ [OnLogStream log false]
  ∧ chain (pushLogStream log true c) = chain c ++ [log]
  ∧ workingMemory (pushLogStream log true c)
    = (let wm := workingMemory c in
       match log_ref log with
       | RThought =>
           mkWorkingMemory (wm_thoughts wm ++ [log]) (wm_calls wm)
                           (wm_results wm) (wm_outputs wm)
       | RActionCall =>
           mkWorkingMemory (wm_thoughts wm) (wm_calls wm ++ [log])
                           (wm_results wm) (wm_outputs wm)
       | RActionResult =>
           mkWorkingMemory (wm_thoughts wm) (wm_calls wm)
                           (wm_results wm ++ [log]) (wm_outputs wm)
       | ROutput => wm
       end)
  ∧ chain (handleOutputStream_resumed refs c) = chain c ++ refs
  ∧ wm_outputs (workingMemory (handleOutputStream_resumed refs c))
    = wm_outputs (workingMemory c) ++ refs.
Proof.
  rewrite pushLogStream_partial. repeat split; try done.
  - apply pushLogStream_chain.
  - apply pushLogStream_workingMemory.
  - apply handleOutputStream_resumed_commit.
  - apply handleOutputStream_resumed_commit.
Qed.

(** ** The episodic-memory trigger *)

Lemma pushLogStream_result_effects (log : Log) (c : Ctx) :
  log_ref log = RActionResult →
  effects (pushLogStream log true c)
  = effects c
    ++ match last (wm_thoughts (workingMemory c)),
             last (wm_calls (workingMemory c)) with
       | Some lastThought, Some lastActionCall =>
           if generateMemories c
           then [CallGenerateEpisode lastThought lastActionCall log]
           else []
       | _, _ => []
       end
    ++ [OnLogStream log true].
Proof.
  intros Href. unfold pushLogStream, episodeTrigger. rewrite Href.
  decide_refs. cbn. trigger_cases c; cbn; by rewrite <- ?app_assoc.
Qed.

Lemma pushLogStream_result_pending (log : Log) (c : Ctx) :
  log_ref log = RActionResult →
  pending (pushLogStream log true c)
  = match last (wm_thoughts (workingMemory c)),
          last (wm_calls (workingMemory c)) with
    | Some _, Some _ =>
        if generateMemories c then <[next_task c := TEpisode]> (pending c)
        else pending c
    | _, _ => pending c
    end.
Proof.
  intros Href. unfold pushLogStream, episodeTrigger. rewrite Href.
  decide_refs. cbn. trigger_cases c; done.
Qed.

Lemma last_Some_ne_nil {A : Type} (l : list A) (x : A) :
  last l = Some x → l ≠ [].
Proof. by intros Hl ->. Qed.

Lemma episode_started_iff (log : Log) (c : Ctx) (t a : Log) :
  log_ref log = RActionResult →
  CallGenerateEpisode t a log
    ∈ drop (length (effects c)) (effects (pushLogStream log true c))
  ↔ last (wm_thoughts (workingMemory c)) = Some t
    ∧ last (wm_calls (workingMemory c)) = Some a
    ∧ generateMemories c = true.
Proof.
  intros Href. rewrite pushLogStream_result_effects, drop_app_length by done.
  destruct (last (wm_thoughts (workingMemory c))) as [t'|];
    destruct (last (wm_calls (workingMemory c))) as [a'|];
    destruct (generateMemories c); cbn [app];
    rewrite ?elem_of_cons, ?elem_of_nil; split;
    try (intros [Heq|[Heq|[]]]; [inversion Heq; by subst|discriminate]);
    try (intros [Heq|[]]; discriminate);
    try (intros (? & ? & ?); discriminate).
  intros (Ht & Ha & _). left. by inversion Ht; inversion Ha; subst.
Qed.

(** C9, as amended: when an action result is committed, episode generation
    is started if and only if the working memory holds at least one
    thought and at least one call and the agent has memory generation
    enabled ([agent.memory.generateMemories]); it is given the last
    thought and the last call by position, and the result. The promise is
    not awaited: it is left pending as a task of its own, and when it
    rejects the only effect is one logged error (the chain, the working
    memory and the pending work stay as they are, nothing is started
    again). *)
Theorem episode_trigger_condition
    (log : Log) (c : Ctx) (k : nat) (err : Err) :
  log_ref log = RActionResult →
  let c' := pushLogStream log true c in
  let started := drop (length (effects c)) (effects c') in
  ((∃ t a, CallGenerateEpisode t a log ∈ started)
   ↔ wm_thoughts (workingMemory c) ≠ []
     ∧ wm_calls (workingMemory c) ≠ []
     ∧ generateMemories c = true)
  ∧ (∀ t a, CallGenerateEpisode t a log ∈ started →
       last (wm_thoughts (workingMemory c)) = Some t
       ∧ last (wm_calls (workingMemory c)) = Some a
       ∧ pending c' = <[next_task c := TEpisode]> (pending c))
  ∧ resume k TEpisode (Rejected err) c
    = Some (emit (LoggerError "agent:generateEpisode"
                              "Failed to generate episode") c)
  ∧ resume k TEpisode Completed c = Some c.
Proof.
  intros Href. cbv zeta. split; [|split; [|done]].
  - split.
    + intros (t & a & Hin). apply episode_started_iff in Hin; [|done].
      destruct Hin as (Ht & Ha & Hg).
      eauto using last_Some_ne_nil.
    + intros (Ht & Ha & Hg).
      destruct (last (wm_thoughts (workingMemory c))) as [t|] eqn:Hlt;
        [|by apply last_None in Hlt].
      destruct (last (wm_calls (workingMemory c))) as [a|] eqn:Hla;
        [|by apply last_None in Hla].
      exists t, a. by apply episode_started_iff.
  - intros t a Hin. apply episode_started_iff in Hin; [|done].
    destruct Hin as (Ht & Ha & Hg). repeat split; try done.
    by rewrite pushLogStream_result_pending, Ht, Ha, Hg.
Qed.

(** ** Record identity: [getOrCreateRef] *)

Arguments pushLogStream : simpl never.
Arguments handleOutputStream_resumed : simpl never.
Arguments getOrCreateRef : simpl never.

Lemma pushLogStream_logsByIndex (log : Log) (done : bool) (c : Ctx) :
  logsByIndex (pushLogStream log done c) = logsByIndex c.
Proof.
  destruct done; [|by rewrite pushLogStream_partial].
  push_cases log; try done. trigger_cases c; done.
Qed.

Lemma handleOutputStream_resumed_logsByIndex (refs : list Log) (c : Ctx) :
  logsByIndex (handleOutputStream_resumed refs c) = logsByIndex c.
Proof.
  induction refs as [|ref refs IH] using rev_ind; [done|].
  by rewrite handleOutputStream_resumed_snoc, pushLogStream_logsByIndex.
Qed.

Ltac stringify_cases :=
  lazymatch goal with
  | |- context [JSON_stringify ?err] =>
      destruct (JSON_stringify err) as [serialized|] eqn:?
  | |- _ => idtac
  end.

Lemma actionCall_settled_rejected (k : nat) (call : Log) (err : Err)
    (c c' : Ctx) :
  actionCall_settled k call (Rejected err) c = Some c' →
  (∃ serialized, JSON_stringify err = Some serialized ∧
     c' = fulfil k (error_result call serialized c)
            (pushLogStream (error_result call serialized c) true
               (used_uuid_and_clock c)))
  ∨ (JSON_stringify err = None ∧ c' = reject k (used_uuid c)).
Proof.
  unfold actionCall_settled.
  destruct (JSON_stringify err) as [serialized|]; intros [= <-]; eauto.
Qed.

Lemma resume_logsByIndex (k : nat) (t : Task) (o : Outcome) (c c' : Ctx) :
  resume k t o c = Some c' → logsByIndex c' = logsByIndex c.
Proof.
  destruct t, o; cbn; intros Heq; try done.
  - inversion Heq; subst.
    unfold handleActionCallStream_resumed. destruct (aborted c); [done|].
    cbn. apply pushLogStream_logsByIndex.
  - by inversion Heq.
  - inversion Heq; subst. cbn. apply pushLogStream_logsByIndex.
  - destruct (actionCall_settled_rejected _ _ _ _ _ Heq)
      as [(serialized & _ & ->)|[_ ->]]; [|done].
    cbn. by rewrite pushLogStream_logsByIndex.
  - inversion Heq; subst. apply handleOutputStream_resumed_logsByIndex.
  - by inversion Heq.
  - by inversion Heq.
  - by inversion Heq.
Qed.

Lemma getOrCreateRef_lookup (index : Z) (kind : RefKind) (c : Ctx) :
  logsByIndex (snd (getOrCreateRef index kind c)) !! index
  = Some (fst (getOrCreateRef index kind c)).
Proof.
  unfold getOrCreateRef.
  destruct (logsByIndex c !! index) as [r|] eqn:Hr; cbn; [done|].
  apply lookup_insert_eq.
Qed.

Lemma getOrCreateRef_stable (index j : Z) (kind : RefKind) (c : Ctx)
    (r : PartialLog) :
  logsByIndex c !! j = Some r →
  logsByIndex (snd (getOrCreateRef index kind c)) !! j = Some r.
Proof.
  intros Hj. unfold getOrCreateRef.
  destruct (logsByIndex c !! index) as [r'|] eqn:Hr; cbn; [done|].
  rewrite lookup_insert_ne; [done|]. intros ->. congruence.
Qed.

Lemma getOrCreateRef_effects (index : Z) (kind : RefKind) (c : Ctx) :
  effects (snd (getOrCreateRef index kind c)) = effects c.
Proof.
  unfold getOrCreateRef. by destruct (logsByIndex c !! index).
Qed.

(** The new effects of one commit hand on no other record than [log]. *)
Lemma pushLogStream_records (log : Log) (done : bool) (c : Ctx) :
  ∃ new, effects (pushLogStream log done c) = effects c ++ new
         ∧ ∀ e l, e ∈ new → record_of e = Some l → l = log.
Proof.
  destruct done.
  2:{ rewrite pushLogStream_partial. exists [OnLogStream log false].
      split; [done|]. intros e l ->%list_elem_of_singleton Hrec. cbn in Hrec. congruence. }
  push_cases log.
  - exists [LoggerDebug "agent:think" "thought"; OnThinking log;
            OnLogStream log true].
    split; [by rewrite <- !app_assoc|].
    intros e l. rewrite !elem_of_cons, elem_of_nil.
    intros [->|[->|[->|[]]]] Hrec; cbn in Hrec; congruence.
  - exists [OnLogStream log true]. split; [done|].
    intros e l ->%list_elem_of_singleton Hrec. cbn in Hrec. congruence.
  - trigger_cases c; cbn.
    1:{ eexists [CallGenerateEpisode _ _ log; OnLogStream log true].
        split; [by rewrite <- !app_assoc|].
        intros e l'. rewrite !elem_of_cons, elem_of_nil.
        intros [->|[->|[]]] Hrec; cbn in Hrec; congruence. }
    all: exists [OnLogStream log true]; (split; [done|]);
      intros e l' ->%list_elem_of_singleton Hrec; cbn in Hrec; congruence.
  - exists [OnLogStream log true]. split; [done|].
    intros e l ->%list_elem_of_singleton Hrec. cbn in Hrec. congruence.
Qed.

(** What [handler] does for an element that it dispatches on. *)
Lemma handler_dispatch (el : StackElement) (c : Ctx)
    (kind : RefKind) :
  let c0 := set_state_index (Z.max (el_index el) (state_index c)) c in
  let ref := fst (getOrCreateRef (el_index el) kind c0) in
  let c1 := snd (getOrCreateRef (el_index el) kind c0) in
  logsByIndex c1 !! el_index el = Some ref ∧ effects c1 = effects c.
Proof.
  cbv zeta. split; [apply getOrCreateRef_lookup|].
  by rewrite getOrCreateRef_effects.
Qed.

Lemma handler_logsByIndex_stable (el : StackElement) (c : Ctx) (j : Z)
    (r : PartialLog) :
  logsByIndex c !! j = Some r → logsByIndex (handler el c) !! j = Some r.
Proof.
  intros Hj. unfold handler. destruct (aborted c); [done|].
  set (c0 := set_state_index _ c).
  assert (Hj0 : logsByIndex c0 !! j = Some r) by done.
  assert (Hst : ∀ kind, logsByIndex (snd (getOrCreateRef (el_index el) kind c0))
                        !! j = Some r)
    by (intros kind; by apply getOrCreateRef_stable).
  destruct (bool_decide (el_tag el = "think")
            || bool_decide (el_tag el = "reasoning")).
  { specialize (Hst RThought).
    destruct (getOrCreateRef (el_index el) RThought c0) as [ref c1].
    by rewrite pushLogStream_logsByIndex. }
  destruct (bool_decide (el_tag el = "action_call")).
  { specialize (Hst RActionCall).
    destruct (getOrCreateRef (el_index el) RActionCall c0) as [ref c1].
    unfold handleActionCallStream. destruct (negb (el_done el)); [|done].
    by rewrite pushLogStream_logsByIndex. }
  destruct (bool_decide (el_tag el = "output")); [|done].
  specialize (Hst ROutput).
  destruct (getOrCreateRef (el_index el) ROutput c0) as [ref c1].
  destruct (falsy _); [done|].
  unfold handleOutputStream. destruct (negb (el_done el)); [|done].
  by rewrite pushLogStream_logsByIndex.
Qed.

Lemma handler_records (el : StackElement) (c : Ctx) (e : Effect) (log : Log) :
  e ∈ drop (length (effects c)) (effects (handler el c)) →
  record_of e = Some log →
  ∃ r, logsByIndex (handler el c) !! el_index el = Some r
       ∧ log_id log = pl_id r
       ∧ log_timestamp log = pl_timestamp r
       ∧ log_processed log = pl_processed r
       ∧ log_ref log = pl_ref r.
Proof.
  unfold handler. destruct (aborted c).
  { rewrite drop_all. by intros ?%elem_of_nil. }
  set (c0 := set_state_index _ c).
  assert (Hdisp : ∀ kind,
    logsByIndex (snd (getOrCreateRef (el_index el) kind c0)) !! el_index el
    = Some (fst (getOrCreateRef (el_index el) kind c0))
    ∧ effects (snd (getOrCreateRef (el_index el) kind c0)) = effects c)
    by (intros kind; apply handler_dispatch).
  destruct (bool_decide (el_tag el = "think")
            || bool_decide (el_tag el = "reasoning")).
  { destruct (Hdisp RThought) as [Hlook Heff].
    destruct (getOrCreateRef (el_index el) RThought c0) as [ref c1].
    cbn [fst snd] in *.
    destruct (pushLogStream_records (thought_record ref el) (el_done el) c1)
      as (new & -> & Hnew).
    rewrite Heff, drop_app_length, pushLogStream_logsByIndex.
    intros He Hrec. rewrite (Hnew e log He Hrec). by exists ref. }
  destruct (bool_decide (el_tag el = "action_call")).
  { destruct (Hdisp RActionCall) as [Hlook Heff].
    destruct (getOrCreateRef (el_index el) RActionCall c0) as [ref c1].
    cbn [fst snd] in *. unfold handleActionCallStream.
    destruct (negb (el_done el)).
    - destruct (pushLogStream_records (call_record ref el) false c1)
        as (new & -> & Hnew).
      rewrite Heff, drop_app_length, pushLogStream_logsByIndex.
      intros He Hrec. rewrite (Hnew e log He Hrec). by exists ref.
    - cbn. rewrite Heff, drop_app_length.
      intros ->%list_elem_of_singleton Hrec. cbn in Hrec.
      inversion Hrec; subst log. by exists ref. }
  destruct (bool_decide (el_tag el = "output")).
  2:{ cbn. rewrite drop_all. by intros ?%elem_of_nil. }
  destruct (Hdisp ROutput) as [Hlook Heff].
  destruct (getOrCreateRef (el_index el) ROutput c0) as [ref c1].
  cbn [fst snd] in *.
  destruct (falsy _).
  { cbn. rewrite Heff, drop_app_length.
    by intros ->%list_elem_of_singleton Hrec. }
  unfold handleOutputStream. destruct (negb (el_done el)).
  - destruct (pushLogStream_records (output_record ref el) false c1)
      as (new & -> & Hnew).
    rewrite Heff, drop_app_length, pushLogStream_logsByIndex.
    intros He Hrec. rewrite (Hnew e log He Hrec). by exists ref.
  - cbn. rewrite Heff, drop_app_length.
    intros ->%list_elem_of_singleton Hrec. cbn in Hrec.
    inversion Hrec; subst log. by exists ref.
Qed.

Lemma handleChunk_snoc {S : Type} (fn : StackElement → S → S)
    (evs : list ParserEvent) (ev : ParserEvent) (st : StreamState * S) :
  handleChunk fn (evs ++ [ev]) st
  = handleChunk fn [ev] (handleChunk fn evs st).
Proof. unfold handleChunk. by rewrite foldl_snoc. Qed.

Lemma handleChunk_logsByIndex_stable (evs : list ParserEvent) (s : Session)
    (j : Z) (r : PartialLog) :
  logsByIndex (snd s) !! j = Some r →
  logsByIndex (snd (handleChunk handler evs s)) !! j = Some r.
Proof.
  intros Hj. induction evs as [|ev evs IH] using rev_ind; [done|].
  rewrite handleChunk_snoc. destruct (handleChunk handler evs s) as [ss c].
  unfold handleChunk. cbn [foldl fst snd] in *.
  destruct (handleEvent ev ss) as [ss' [[l el]|]]; cbn [snd]; [|done].
  by apply handler_logsByIndex_stable.
Qed.

Lemma step_logsByIndex_stable (st : Step) (s s' : Session) (j : Z)
    (r : PartialLog) :
  step s st = Some s' →
  logsByIndex (snd s) !! j = Some r → logsByIndex (snd s') !! j = Some r.
Proof.
  destruct st as [evs| |k o]; cbn [step].
  - intros [= <-]. apply handleChunk_logsByIndex_stable.
  - by intros [= <-].
  - destruct (pending (snd s) !! k) as [t|]; [|done].
    destruct (resume k t o (retire k (snd s))) as [c'|] eqn:Hres; [|done].
    intros [= <-]. cbn [snd]. by rewrite (resume_logsByIndex _ _ _ _ _ Hres).
Qed.

Lemma run_snoc (steps : list Step) (st : Step) (s : Session) :
  run (steps ++ [st]) s = run steps s ≫= (λ s', step s' st).
Proof. unfold run. by rewrite foldl_snoc. Qed.

Lemma run_logsByIndex_stable (steps : list Step) (s s' : Session) (j : Z)
    (r : PartialLog) :
  run steps s = Some s' →
  logsByIndex (snd s) !! j = Some r → logsByIndex (snd s') !! j = Some r.
Proof.
  revert s'. induction steps as [|st steps IH] using rev_ind; intros s'.
  - by intros [= <-].
  - rewrite run_snoc. destruct (run steps s) as [s1|]; [|done]. cbn.
    intros Hstep Hj. eapply step_logsByIndex_stable; [done|]. by apply IH.
Qed.

(** C10: the first [getOrCreateRef] for an index allocates the stored ref,
    with a fresh identifier, the current time and [processed = false]; any
    later one returns the stored ref and allocates nothing. The stored ref
    of an index stays the same through the whole session, and every record
    that the handler hands on for an element (to the hooks, to the commit
    path or to a pipeline, for a partial or for the final update) carries
    the identifier and the timestamp stored for the element's index. *)
Theorem getOrCreateRef_allocates_once (index : Z) (kind : RefKind) (c : Ctx) :
  (logsByIndex c !! index = None →
     getOrCreateRef index kind c
     = (mkPartialLog (uuids c) (Date_now (ticks c)) false kind,
        store_ref index (mkPartialLog (uuids c) (Date_now (ticks c)) false kind) c))
  ∧ (∀ r, logsByIndex c !! index = Some r → getOrCreateRef index kind c = (r, c))
  ∧ (∀ kind', getOrCreateRef index kind' (snd (getOrCreateRef index kind c))
              = (fst (getOrCreateRef index kind c),
                 snd (getOrCreateRef index kind c)))
  ∧ (∀ steps s s' r, run steps s = Some s' →
       logsByIndex (snd s) !! index = Some r →
       logsByIndex (snd s') !! index = Some r)
  ∧ (∀ el e log, el_index el = index →
       e ∈ drop (length (effects c)) (effects (handler el c)) →
       record_of e = Some log →
       ∃ r, logsByIndex (handler el c) !! index = Some r
            ∧ log_id log = pl_id r ∧ log_timestamp log = pl_timestamp r).
Proof.
  repeat split.
  - intros Hnone. unfold getOrCreateRef. by rewrite Hnone.
  - intros r Hr. unfold getOrCreateRef. by rewrite Hr.
  - intros kind'. unfold getOrCreateRef at 1.
    by rewrite getOrCreateRef_lookup.
  - intros steps s s' r. apply run_logsByIndex_stable.
  - intros el e log <- He Hrec.
    destruct (handler_records el c e log He Hrec) as (r & ? & ? & ? & _).
    by exists r.
Qed.

(** ** Dispatch by tag *)

Lemma handler_aborted (el : StackElement) (c : Ctx) :
  aborted c = true → handler el c = c.
Proof. intros Ha. unfold handler. by rewrite Ha. Qed.

Lemma handler_action_call (el : StackElement) (c : Ctx) :
  aborted c = false → el_tag el = "action_call" →
  handler el c
  = let c0 := set_state_index (Z.max (el_index el) (state_index c)) c in
    handleActionCallStream
      (call_record (fst (getOrCreateRef (el_index el) RActionCall c0)) el)
      (el_done el)
      (snd (getOrCreateRef (el_index el) RActionCall c0)).
Proof.
  intros Ha Htag. unfold handler. rewrite Ha, Htag. decide_refs. cbn [orb].
  cbv zeta. by destruct (getOrCreateRef _ _ _).
Qed.

Lemma handler_output (el : StackElement) (c : Ctx) :
  aborted c = false → el_tag el = "output" →
  handler el c
  = let c0 := set_state_index (Z.max (el_index el) (state_index c)) c in
    let c1 := snd (getOrCreateRef (el_index el) ROutput c0) in
    if falsy (el_attributes el !! "type")
    then emit (LoggerError "agent:output" "Missing output type attribute") c1
    else handleOutputStream
           (output_record (fst (getOrCreateRef (el_index el) ROutput c0)) el)
           (el_done el) c1.
Proof.
  intros Ha Htag. unfold handler. rewrite Ha, Htag. decide_refs. cbn [orb].
  cbv zeta. by destruct (getOrCreateRef _ _ _).
Qed.

(** [getOrCreateRef] touches only the stored refs and the two counters. *)
Lemma getOrCreateRef_frame (index : Z) (kind : RefKind) (c : Ctx) :
  let c1 := snd (getOrCreateRef index kind c) in
  chain c1 = chain c ∧ workingMemory c1 = workingMemory c
  ∧ effects c1 = effects c ∧ pending c1 = pending c
  ∧ next_task c1 = next_task c ∧ actionCalls c1 = actionCalls c
  ∧ aborted c1 = aborted c ∧ fulfilled c1 = fulfilled c
  ∧ generateMemories c1 = generateMemories c.
Proof.
  unfold getOrCreateRef. by destruct (logsByIndex c !! index).
Qed.

(** The output branch: an element without a type attribute is dropped
    with one logged error, whatever its [done] flag. *)
Lemma handler_output_missing_type (el : StackElement) (c : Ctx) :
  aborted c = false → el_tag el = "output" →
  falsy (el_attributes el !! "type") = true →
  effects (handler el c)
  = effects c ++ [LoggerError "agent:output" "Missing output type attribute"]
  ∧ chain (handler el c) = chain c
  ∧ workingMemory (handler el c) = workingMemory c
  ∧ pending (handler el c) = pending c.
Proof.
  intros Ha Htag Hty. rewrite handler_output by done. cbv zeta. rewrite Hty.
  set (c0 := set_state_index _ c).
  destruct (getOrCreateRef_frame (el_index el) ROutput c0)
    as (Hc & Hw & He & Hp & _).
  cbn. by rewrite Hc, Hw, He, Hp.
Qed.

Lemma step_settle (ss : StreamState) (c : Ctx) (k : nat) (t : Task)
    (o : Outcome) :
  pending c !! k = Some t →
  step (ss, c) (Settle k o) = (λ c', (ss, c')) <$> resume k t o (retire k c).
Proof. intros Hk. cbn [step fst snd]. by rewrite Hk. Qed.

Lemma pushLogStream_frame (log : Log) (done : bool) (c : Ctx) :
  let c' := pushLogStream log done c in
  aborted c' = aborted c ∧ actionCalls c' = actionCalls c
  ∧ fulfilled c' = fulfilled c ∧ uuids c' = uuids c ∧ ticks c' = ticks c
  ∧ state_index c' = state_index c
  ∧ generateMemories c' = generateMemories c.
Proof.
  cbv zeta. destruct done; [|by rewrite pushLogStream_partial].
  push_cases log; try done. trigger_cases c; done.
Qed.

Lemma pushLogStream_rejected (log : Log) (done : bool) (c : Ctx) :
  rejected (pushLogStream log done c) = rejected c.
Proof.
  destruct done; [|by rewrite pushLogStream_partial].
  push_cases log; try done. trigger_cases c; done.
Qed.

Lemma pushLogStream_tasks (log : Log) (done : bool) (c : Ctx) :
  log_ref log ≠ RActionResult →
  pending (pushLogStream log done c) = pending c
  ∧ next_task (pushLogStream log done c) = next_task c.
Proof.
  intros Href. destruct done; [|by rewrite pushLogStream_partial].
  push_cases log; done.
Qed.

(** The continuation of [handleActionCallStream] when the signal has not
    fired: the call is committed, then its execution is started and
    tracked. *)
Lemma handleActionCallStream_resumed_commit (call : Log) (action : string)
    (c : Ctx) :
  aborted c = false →
  let c' := handleActionCallStream_resumed call action c in
  let k := next_task (pushLogStream call true c) in
  chain c' = chain c ++ [call]
  ∧ workingMemory c' = workingMemory (pushLogStream call true c)
  ∧ effects c'
    = effects (pushLogStream call true c) ++ [CallHandleActionCall call action]
  ∧ pending c' = <[k := TExec call]> (pending (pushLogStream call true c))
  ∧ actionCalls c' = actionCalls c ++ [k].
Proof.
  intros Ha. cbv zeta. unfold handleActionCallStream_resumed. rewrite Ha.
  cbn. rewrite pushLogStream_chain.
  by destruct (pushLogStream_frame call true c) as (_ & -> & _).
Qed.

(** C4 (the behaviour of the code where the claim fails): an [action_call]
    element without a [name] attribute is not dropped. Its partial updates
    reach the [onLogStream] hook as a call record without a name and no
    error is logged; its final update enters the action pipeline
    ([prepareActionCall] is called with the nameless call), and when that
    resolves the nameless call is committed to the chain. The [output] branch beside it does drop an
    element without [type], with one logged error. *)
Theorem action_call_without_name_is_dispatched
    (ss : StreamState) (c : Ctx) (i : Z) (content : list string)
    (action : string) :
  let el d := mkStackElement i "action_call" ∅ content d in
  let out d := mkStackElement i "output" ∅ content d in
  (∃ call,
     log_name call = None
     ∧ effects (handler (el false) (not_aborted c))
       = effects c ++ [OnLogStream call false])
  ∧ (∃ call c2,
       log_name call = None
       ∧ effects (handler (el true) (not_aborted c))
         = effects c ++ [CallPrepareActionCall call]
       ∧ step (ss, handler (el true) (not_aborted c))
              (Settle (next_task c) (Prepared action)) = Some (ss, c2)
       ∧ chain c2 = chain c ++ [call])
  ∧ (∀ d,
       effects (handler (out d) (not_aborted c))
       = effects c
         ++ [LoggerError "agent:output" "Missing output type attribute"]
       ∧ chain (handler (out d) (not_aborted c)) = chain c
       ∧ workingMemory (handler (out d) (not_aborted c)) = workingMemory c
       ∧ pending (handler (out d) (not_aborted c)) = pending c).
Proof.
  cbv zeta. split; [|split].
  - rewrite handler_action_call by done. cbv zeta. cbn [el_index el_done].
    set (c0 := set_state_index _ _).
    destruct (getOrCreateRef_frame i RActionCall c0) as (_ & _ & He & _).
    eexists. split; [|unfold handleActionCallStream; cbn [negb];
                      rewrite pushLogStream_partial; cbn; by rewrite He].
    done.
  - rewrite handler_action_call by done. cbv zeta. cbn [el_index el_done].
    set (c0 := set_state_index _ _).
    destruct (getOrCreateRef_frame i RActionCall c0)
      as (Hc & Hw & He & Hp & Hn & _ & Ha & _).
    set (ref := fst (getOrCreateRef i RActionCall c0)) in *.
    set (c1 := snd (getOrCreateRef i RActionCall c0)) in *.
    set (call := call_record ref (mkStackElement i "action_call" ∅ content true)).
    change (handleActionCallStream call true c1)
      with (spawn (TPrepare call) (emit (CallPrepareActionCall call) c1)).
    exists call. eexists. split; [done|]. split; [cbn; by rewrite He|].
    rewrite (step_settle _ _ _ (TPrepare call)).
    2:{ cbn. rewrite Hn. apply lookup_insert_eq. }
    cbn [resume fmap option_fmap option_map]. split; [reflexivity|].
    match goal with
    | |- chain (handleActionCallStream_resumed _ _ ?c') = _ =>
        destruct (handleActionCallStream_resumed_commit call action c')
          as (-> & _); [exact Ha|]
    end.
    cbn. by rewrite Hc.
  - intros d.
    exact (handler_output_missing_type (mkStackElement i "output" ∅ content d)
             (not_aborted c) eq_refl eq_refl eq_refl).
Qed.

(** ** Action calls: commit order, failures and cancellation *)

Lemma handleChunk_aborted (evs : list ParserEvent) (ss : StreamState)
    (c : Ctx) :
  aborted c = true → snd (handleChunk handler evs (ss, c)) = c.
Proof.
  intros Ha. induction evs as [|ev evs IH] using rev_ind; [done|].
  rewrite handleChunk_snoc.
  destruct (handleChunk handler evs (ss, c)) as [ss' c']. cbn [snd] in IH.
  subst c'. unfold handleChunk. cbn [foldl fst snd].
  destruct (handleEvent ev ss') as [ss'' [[l el]|]]; cbn [snd]; [|done].
  by apply handler_aborted.
Qed.

(** C6 (the behaviour of the code, with the case in which the claim
    fails): when the promise of [handleActionCall] for a call rejects with
    [err], the [.catch] handler draws an identifier and calls
    [JSON.stringify(err)]. When that call returns, an action result with
    the call's id as [callId], the call's name and [data = {error: ...}]
    is appended to the chain and to the results of the working memory, and
    the promise kept in [actionCalls] resolves with it. When that call
    throws (a circular structure, a BigInt), the handler throws: no result
    is built, nothing reaches the chain, the working memory or the hooks,
    and the promise kept in [actionCalls] rejects, so the failure reaches
    whoever awaits it. The parse state and the abort flag are left as they
    are in both cases. *)
Theorem failed_action_result_unless_unserialisable
    (ss : StreamState) (c : Ctx) (k : nat) (call : Log) (err : Err) :
  ∃ c', step (ss, with_pending k (TExec call) c) (Settle k (Rejected err))
        = Some (ss, c')
    ∧ aborted c' = aborted c
    ∧ match JSON_stringify err with
      | Some serialized =>
          let result := error_result call serialized c in
          log_ref result = RActionResult
          ∧ log_callId result = Some (log_id call)
          ∧ log_name result = log_name call
          ∧ log_data result = DataError serialized
          ∧ log_processed result = false
          ∧ chain c' = chain c ++ [result]
          ∧ wm_results (workingMemory c')
            = wm_results (workingMemory c) ++ [result]
          ∧ fulfilled c' !! k = Some result
          ∧ rejected c' = rejected c
      | None =>
          chain c' = chain c
          ∧ workingMemory c' = workingMemory c
          ∧ effects c' = effects c
          ∧ fulfilled c' = fulfilled c
          ∧ k ∈ rejected c'
      end.
Proof.
  rewrite (step_settle _ _ _ (TExec call)) by (cbn; apply lookup_insert_eq).
  cbn [resume actionCall_settled].
  destruct (JSON_stringify err) as [serialized|];
    cbn [fmap option_fmap option_map]; eexists; (split; [reflexivity|]).
  - cbv zeta.
    split; [cbn [aborted fulfil];
            by destruct (pushLogStream_frame
                           (error_result call serialized
                              (retire k (with_pending k (TExec call) c))) true
                           (used_uuid_and_clock
                              (retire k (with_pending k (TExec call) c))))
              as (-> & _)|].
    repeat (split; [done|]).
    change (error_result call serialized
              (retire k (with_pending k (TExec call) c)))
      with (error_result call serialized c).
    cbn [chain workingMemory fulfilled rejected fulfil].
    rewrite pushLogStream_chain, pushLogStream_workingMemory,
      pushLogStream_rejected.
    repeat split; try done. apply lookup_insert_eq.
  - cbn. repeat split; try done. set_solver.
Qed.

(** Once the abort signal has fired, the handler does nothing for any
    element it is given, so a whole chunk leaves the context as it is: no
    ref is created, nothing reaches the hooks or the pipelines. A call
    whose preparation completes after the signal is neither committed nor
    executed: no execution is started or tracked for it, so it has no
    result. An execution that was already pending when the signal fired
    still has its result committed through [pushLogStream] when it
    completes: the result is appended to the chain and the working memory
    and the tracked promise resolves with it. *)
Lemma abort_skips_new_work
    (ss : StreamState) (c : Ctx) (el : StackElement) (evs : list ParserEvent)
    (k : nat) (call : Log) (action : string) (res : Log) :
  handler el (abort c) = abort c
  ∧ snd (handleChunk handler evs (ss, abort c)) = abort c
  ∧ (∃ c', step (ss, with_pending k (TPrepare call) (abort c))
                (Settle k (Prepared action)) = Some (ss, c')
           ∧ chain c' = chain c ∧ workingMemory c' = workingMemory c
           ∧ effects c' = effects c ∧ actionCalls c' = actionCalls c
           ∧ pending c' = delete k (pending c)
           ∧ fulfilled c' = fulfilled c
           ∧ rejected c' = rejected c)
  ∧ (∃ c', step (ss, with_pending k (TExec call) (abort c))
                (Settle k (Returned res)) = Some (ss, c')
           ∧ chain c' = chain c ++ [res]
           ∧ workingMemory c' = workingMemory (pushLogStream res true c)
           ∧ fulfilled c' !! k = Some res).
Proof.
  split; [by apply handler_aborted|].
  split; [by apply handleChunk_aborted|].
  split.
  - eexists. rewrite (step_settle _ _ _ (TPrepare call))
      by (cbn; apply lookup_insert_eq).
    cbn [resume fmap option_fmap option_map].
    unfold handleActionCallStream_resumed. cbn [aborted retire with_pending abort].
    split; [reflexivity|]. cbn. repeat split; try done.
    apply delete_insert_eq.
  - eexists. rewrite (step_settle _ _ _ (TExec call))
      by (cbn; apply lookup_insert_eq).
    cbn [resume actionCall_settled fmap option_fmap option_map].
    split; [reflexivity|].
    cbn [chain workingMemory fulfilled fulfil].
    rewrite pushLogStream_chain, !pushLogStream_workingMemory.
    repeat split; try done. apply lookup_insert_eq.
Qed.

Lemma pushLogStream_pending_lookup (log : Log) (done : bool) (c : Ctx)
    (k : nat) :
  k < next_task c →
  pending (pushLogStream log done c) !! k = pending c !! k.
Proof.
  intros Hk. destruct done; [|by rewrite pushLogStream_partial].
  push_cases log; try done. trigger_cases c; cbn; try done.
  apply lookup_insert_ne. lia.
Qed.

(** Settling a pending execution with a result commits the result at the
    end of the chain and keeps the other pending work. *)
Lemma settle_returned (ss : StreamState) (c : Ctx) (k : nat) (call res : Log) :
  pending c !! k = Some (TExec call) →
  ∃ c', step (ss, c) (Settle k (Returned res)) = Some (ss, c')
        ∧ chain c' = chain c ++ [res]
        ∧ (∀ j, j ≠ k → j < next_task c → pending c' !! j = pending c !! j)
        ∧ next_task c ≤ next_task c'.
Proof.
  intros Hk. eexists. rewrite (step_settle _ _ _ (TExec call)) by done.
  cbn [resume actionCall_settled fmap option_fmap option_map].
  split; [reflexivity|]. cbn [chain pending next_task fulfil].
  rewrite pushLogStream_chain. split; [done|]. split.
  - intros j Hne Hlt. rewrite pushLogStream_pending_lookup by done.
    cbn. by apply lookup_delete_ne.
  - unfold pushLogStream, episodeTrigger.
    destruct (log_ref res); decide_refs; cbn; try lia.
    trigger_cases c; cbn; lia.
Qed.

(** C5, as amended: the final update of an [action_call] element does not
    commit the call at once. The handler returns with the chain and the
    working memory as they were and with the call waiting for
    [prepareActionCall]; the call is appended to the chain (and to the
    calls of the working memory) when that promise has resolved, in the
    same step that starts and tracks its execution, hence before its own
    result. The results of pending executions are appended to the chain
    in the order in which the executions complete, whatever the order of
    the calls. *)
Theorem action_call_commit_order
    (ss : StreamState) (c : Ctx) (i : Z) (attrs : gmap string string)
    (content : list string) (action : string)
    (k1 k2 : nat) (call1 call2 res1 res2 : Log) :
  let el := mkStackElement i "action_call" attrs content true in
  let c1 := handler el (not_aborted c) in
  (∃ call c2,
     log_name call = attrs !! "name"
     ∧ log_content call = Some (String.concat "" content)
     ∧ chain c1 = chain c ∧ workingMemory c1 = workingMemory c
     ∧ pending c1 !! next_task c = Some (TPrepare call)
     ∧ step (ss, c1) (Settle (next_task c) (Prepared action)) = Some (ss, c2)
     ∧ chain c2 = chain c ++ [call]
     ∧ (log_ref call = RActionCall →
          wm_calls (workingMemory c2) = wm_calls (workingMemory c) ++ [call]
          ∧ pending c2 !! S (next_task c) = Some (TExec call)
          ∧ actionCalls c2 = actionCalls c ++ [S (next_task c)]))
  ∧ (k1 ≠ k2 → k1 < next_task c → k2 < next_task c →
     let s := (ss, with_pending k1 (TExec call1)
                     (with_pending k2 (TExec call2) c)) in
     (∃ c', run [Settle k1 (Returned res1); Settle k2 (Returned res2)] s
            = Some (ss, c')
            ∧ chain c' = chain c ++ [res1; res2])
     ∧ (∃ c', run [Settle k2 (Returned res2); Settle k1 (Returned res1)] s
              = Some (ss, c')
              ∧ chain c' = chain c ++ [res2; res1])).
Proof.
  cbv zeta. split.
  - rewrite handler_action_call by done. cbv zeta. cbn [el_index el_done].
    set (c0 := set_state_index _ _).
    destruct (getOrCreateRef_frame i RActionCall c0)
      as (Hc & Hw & He & Hp & Hn & Hac & Ha & _).
    set (ref := fst (getOrCreateRef i RActionCall c0)) in *.
    set (c1 := snd (getOrCreateRef i RActionCall c0)) in *.
    set (call := call_record ref (mkStackElement i "action_call" attrs content true)).
    change (handleActionCallStream call true c1)
      with (spawn (TPrepare call) (emit (CallPrepareActionCall call) c1)).
    assert (Hlook : pending (spawn (TPrepare call)
                               (emit (CallPrepareActionCall call) c1))
                    !! next_task c = Some (TPrepare call)).
    { cbn. rewrite Hn. apply lookup_insert_eq. }
    exists call. eexists. do 4 (split; [done|]). split; [exact Hlook|].
    rewrite (step_settle _ _ _ (TPrepare call)) by exact Hlook.
    cbn [resume fmap option_fmap option_map]. split; [reflexivity|].
    match goal with
    | |- context [handleActionCallStream_resumed _ _ ?c'] =>
        destruct (handleActionCallStream_resumed_commit call action c' Ha)
          as (-> & -> & _ & -> & ->)
    end.
    split; [cbn; by rewrite Hc|].
    intros Href. rewrite pushLogStream_workingMemory, Href. cbn.
    rewrite Hw, Hac.
    destruct (pushLogStream_tasks call true
                (retire (next_task c)
                   (spawn (TPrepare call)
                      (emit (CallPrepareActionCall call) c1))))
      as [_ ->]; [by rewrite Href|].
    cbn. rewrite Hn. repeat split; try done. apply lookup_insert_eq.
  - intros Hne Hk1 Hk2.
    set (c0 := with_pending k1 (TExec call1) (with_pending k2 (TExec call2) c)).
    assert (H1 : pending c0 !! k1 = Some (TExec call1))
      by (cbn; apply lookup_insert_eq).
    assert (H2 : pending c0 !! k2 = Some (TExec call2)).
    { cbn. rewrite lookup_insert_ne by done. apply lookup_insert_eq. }
    split.
    + destruct (settle_returned ss c0 k1 call1 res1 H1)
        as (c' & Hs1 & Hch1 & Hp1 & _).
      destruct (settle_returned ss c' k2 call2 res2) as (c'' & Hs2 & Hch2 & _).
      { rewrite Hp1; [done|congruence|done]. }
      exists c''. unfold run. cbn [foldl mbind option_bind].
      rewrite Hs1. cbn [mbind option_bind]. rewrite Hs2. split; [done|].
      rewrite Hch2, Hch1. cbn. by rewrite <- app_assoc.
    + destruct (settle_returned ss c0 k2 call2 res2 H2)
        as (c' & Hs1 & Hch1 & Hp1 & _).
      destruct (settle_returned ss c' k1 call1 res1) as (c'' & Hs2 & Hch2 & _).
      { rewrite Hp1; [done|congruence|done]. }
      exists c''. unfold run. cbn [foldl mbind option_bind].
      rewrite Hs1. cbn [mbind option_bind]. rewrite Hs2. split; [done|].
      rewrite Hch2, Hch1. cbn. by rewrite <- app_assoc.
Qed.

(** ** The commit path in a session *)

Lemma handler_frame (el : StackElement) (c : Ctx) :
  aborted (handler el c) = aborted c.
Proof.
  unfold handler. destruct (aborted c) eqn:Ha; [done|].
  set (c0 := set_state_index _ c).
  assert (Hfr : ∀ kind, aborted (snd (getOrCreateRef (el_index el) kind c0))
                        = false).
  { intros kind.
    by destruct (getOrCreateRef_frame (el_index el) kind c0)
      as (_ & _ & _ & _ & _ & _ & -> & _). }
  destruct (bool_decide (el_tag el = "think")
            || bool_decide (el_tag el = "reasoning")).
  { specialize (Hfr RThought).
    destruct (getOrCreateRef (el_index el) RThought c0) as [ref c1].
    by destruct (pushLogStream_frame (thought_record ref el) (el_done el) c1)
      as (-> & _). }
  destruct (bool_decide (el_tag el = "action_call")).
  { specialize (Hfr RActionCall).
    destruct (getOrCreateRef (el_index el) RActionCall c0) as [ref c1].
    unfold handleActionCallStream. destruct (negb (el_done el)); [|done].
    by destruct (pushLogStream_frame (call_record ref el) false c1)
      as (-> & _). }
  destruct (bool_decide (el_tag el = "output")); [|done].
  specialize (Hfr ROutput).
  destruct (getOrCreateRef (el_index el) ROutput c0) as [ref c1].
  destruct (falsy _); [done|].
  unfold handleOutputStream. destruct (negb (el_done el)); [|done].
  by destruct (pushLogStream_frame (output_record ref el) false c1)
    as (-> & _).
Qed.

(** What one handler call appends to the chain before it returns. *)
Lemma handler_chain (el : StackElement) (c : Ctx) :
  aborted c = false →
  chain (handler el c)
  = chain c ++ option_list (committed_thought (handler el c) el).
Proof.
  intros Ha. unfold committed_thought, handler. rewrite Ha.
  set (c0 := set_state_index _ c).
  assert (Hfr : ∀ kind,
    chain (snd (getOrCreateRef (el_index el) kind c0)) = chain c
    ∧ logsByIndex (snd (getOrCreateRef (el_index el) kind c0)) !! el_index el
      = Some (fst (getOrCreateRef (el_index el) kind c0))).
  { intros kind. split; [|apply getOrCreateRef_lookup].
    by destruct (getOrCreateRef_frame (el_index el) kind c0) as (-> & _). }
  destruct (bool_decide (el_tag el = "think")
            || bool_decide (el_tag el = "reasoning")) eqn:Htag.
  { destruct (Hfr RThought) as [Hc Hl].
    destruct (getOrCreateRef (el_index el) RThought c0) as [ref c1].
    cbn [fst snd] in *. rewrite pushLogStream_logsByIndex, Hl.
    destruct (el_done el); cbn.
    - by rewrite pushLogStream_chain, Hc.
    - by rewrite pushLogStream_partial, app_nil_r. }
  rewrite andb_false_r. cbn. rewrite app_nil_r.
  destruct (bool_decide (el_tag el = "action_call")).
  { destruct (Hfr RActionCall) as [Hc _].
    destruct (getOrCreateRef (el_index el) RActionCall c0) as [ref c1].
    cbn [snd] in Hc. unfold handleActionCallStream.
    destruct (negb (el_done el)); [|done]. by rewrite pushLogStream_partial. }
  destruct (bool_decide (el_tag el = "output")); [|done].
  destruct (Hfr ROutput) as [Hc _].
  destruct (getOrCreateRef (el_index el) ROutput c0) as [ref c1].
  cbn [snd] in Hc. destruct (falsy _); [done|].
  unfold handleOutputStream.
  destruct (negb (el_done el)); [|done]. by rewrite pushLogStream_partial.
Qed.

Lemma committed_thought_is_Some (el : StackElement) (c : Ctx) (log : Log) :
  committed_thought c el = Some log →
  ∃ ref, logsByIndex c !! el_index el = Some ref.
Proof.
  unfold committed_thought. destruct (_ && _); [|done].
  destruct (logsByIndex c !! el_index el) as [ref|]; [by exists ref|done].
Qed.

Lemma committed_thought_stable (el el' : StackElement) (c : Ctx) (log : Log) :
  committed_thought c el = Some log →
  committed_thought (handler el' c) el = Some log.
Proof.
  intros Hc. destruct (committed_thought_is_Some _ _ _ Hc) as [ref Href].
  revert Hc. unfold committed_thought. destruct (_ && _); [|done].
  by rewrite (handler_logsByIndex_stable el' c _ ref Href), Href.
Qed.

Lemma omap_ext_in {A B : Type} (f g : A → option B) (l : list A) :
  (∀ x, x ∈ l → f x = g x) → omap f l = omap g l.
Proof.
  intros Hfg. induction l as [|x l IH]; [done|]. cbn.
  rewrite (Hfg x) by left. rewrite IH; [done|].
  intros y Hy. apply Hfg. by right.
Qed.

(** In a burst of handler calls the chain grows by exactly the thoughts
    of the done [think] and [reasoning] invocations, one record each, in
    order; all other invocations append nothing before they return. *)
Lemma handler_burst_chain (els : list StackElement) (c : Ctx) :
  aborted c = false →
  let c' := foldl (λ c el, handler el c) c els in
  aborted c' = false
  ∧ chain c' = chain c ++ omap (committed_thought c') els
  ∧ ∀ el, el ∈ els → el_done el = true →
      bool_decide (el_tag el = "think")
      || bool_decide (el_tag el = "reasoning") = true →
      is_Some (committed_thought c' el).
Proof.
  intros Ha. cbv zeta.
  induction els as [|el els (IHa & IHc & IHs)] using rev_ind.
  { cbn. rewrite app_nil_r. repeat split; try done.
    by intros el ?%elem_of_nil. }
  rewrite foldl_snoc. set (c' := foldl _ c els) in *.
  assert (Hsome : ∀ el0, el0 ∈ els ++ [el] → el_done el0 = true →
            bool_decide (el_tag el0 = "think")
            || bool_decide (el_tag el0 = "reasoning") = true →
            is_Some (committed_thought (handler el c') el0)).
  { intros el0 [Hin| ->%list_elem_of_singleton]%elem_of_app Hd Ht.
    - destruct (IHs el0 Hin Hd Ht) as [log Hlog].
      exists log. by apply committed_thought_stable.
    - pose proof (handler_chain el c' IHa) as Hch.
      unfold committed_thought in *. rewrite Hd, Ht in *. cbn in *.
      unfold handler. rewrite IHa. rewrite Ht.
      set (c0 := set_state_index _ c').
      pose proof (getOrCreateRef_lookup (el_index el) RThought c0) as Hl.
      destruct (getOrCreateRef (el_index el) RThought c0) as [ref c1].
      cbn [fst snd] in Hl.
      rewrite pushLogStream_logsByIndex, Hl. by eexists. }
  split; [by rewrite handler_frame|]. split; [|exact Hsome].
  rewrite handler_chain, IHc, omap_app by done. rewrite <- app_assoc.
  f_equal. f_equal.
  apply omap_ext_in. intros el0 Hin.
  destruct (el_done el0
            && (bool_decide (el_tag el0 = "think")
                || bool_decide (el_tag el0 = "reasoning"))) eqn:Hcond.
  - apply andb_true_iff in Hcond as [Hd Ht].
    destruct (IHs el0 Hin Hd Ht) as [log Hlog].
    by rewrite Hlog, (committed_thought_stable el0 el c' log Hlog).
  - unfold committed_thought. by rewrite Hcond.
Qed.

(** ** Invariants of a session *)

(** The forms a handler call can take when the signal has not fired. *)
Lemma handler_shape (el : StackElement) (c : Ctx) :
  aborted c = false →
  let c0 := set_state_index (Z.max (el_index el) (state_index c)) c in
  handler el c = c0
  ∨ ∃ kind,
      let ref := fst (getOrCreateRef (el_index el) kind c0) in
      let c1 := snd (getOrCreateRef (el_index el) kind c0) in
      (∃ log, log_ref log = pl_ref ref
              ∧ handler el c = pushLogStream log (el_done el) c1)
      ∨ (∃ t e, el_done el = true ∧ handler el c = spawn t (emit e c1))
      ∨ (∃ e, handler el c = emit e c1).
Proof.
  intros Ha. cbv zeta. unfold handler. rewrite Ha.
  set (c0 := set_state_index _ c).
  destruct (bool_decide (el_tag el = "think")
            || bool_decide (el_tag el = "reasoning")).
  { right. exists RThought.
    destruct (getOrCreateRef (el_index el) RThought c0) as [ref c1].
    cbn [fst snd]. left. by exists (thought_record ref el). }
  destruct (bool_decide (el_tag el = "action_call")).
  { right. exists RActionCall.
    destruct (getOrCreateRef (el_index el) RActionCall c0) as [ref c1].
    cbn [fst snd].
    unfold handleActionCallStream. destruct (el_done el) eqn:Hd; cbn [negb].
    - right. left. by do 2 eexists.
    - left. by exists (call_record ref el). }
  destruct (bool_decide (el_tag el = "output")); [|by left].
  right. exists ROutput.
  destruct (getOrCreateRef (el_index el) ROutput c0) as [ref c1].
  cbn [fst snd]. destruct (falsy _); [right; right; by eexists|].
  unfold handleOutputStream. destruct (el_done el) eqn:Hd; cbn [negb].
  - right. left. by do 2 eexists.
  - left. by exists (output_record ref el).
Qed.

Lemma append_only_refl (c : Ctx) : append_only c c.
Proof. by repeat split. Qed.

Lemma append_only_trans (c1 c2 c3 : Ctx) :
  append_only c1 c2 → append_only c2 c3 → append_only c1 c3.
Proof.
  intros (?&?&?&?&?) (?&?&?&?&?). repeat split; by etrans.
Qed.

(** Contexts with the same chain and working memory. *)
Lemma append_only_same (c c' : Ctx) :
  chain c' = chain c → workingMemory c' = workingMemory c → append_only c c'.
Proof. intros Hc Hw. unfold append_only. by rewrite Hc, Hw. Qed.

Lemma pushLogStream_append_only (log : Log) (done : bool) (c : Ctx) :
  append_only c (pushLogStream log done c).
Proof.
  destruct done; [|rewrite pushLogStream_partial; by apply append_only_same].
  unfold append_only. rewrite pushLogStream_chain, pushLogStream_workingMemory.
  cbv zeta. destruct (log_ref log); cbn; repeat split;
    done || by apply prefix_app_r.
Qed.

Lemma getOrCreateRef_append_only (index : Z) (kind : RefKind) (c : Ctx) :
  append_only c (snd (getOrCreateRef index kind c)).
Proof.
  destruct (getOrCreateRef_frame index kind c) as (Hc & Hw & _).
  by apply append_only_same.
Qed.

Lemma handler_append_only (el : StackElement) (c : Ctx) :
  append_only c (handler el c).
Proof.
  destruct (aborted c) eqn:Ha.
  { rewrite handler_aborted by done. apply append_only_refl. }
  pose proof (handler_shape el c Ha) as Hshape. cbv zeta in Hshape.
  set (c0 := set_state_index _ c) in *.
  assert (H0 : append_only c c0) by by apply append_only_same.
  destruct Hshape as [->|(kind & Hshape)]; [done|].
  pose proof (getOrCreateRef_append_only (el_index el) kind c0) as H1.
  set (c1 := snd (getOrCreateRef (el_index el) kind c0)) in *.
  apply (append_only_trans _ c0); [done|].
  apply (append_only_trans _ c1); [done|].
  destruct Hshape as [(log & _ & ->)|[(t & e & _ & ->)|(e & ->)]].
  - apply pushLogStream_append_only.
  - by apply append_only_same.
  - by apply append_only_same.
Qed.

Lemma handleOutputStream_resumed_append_only (refs : list Log) (c : Ctx) :
  append_only c (handleOutputStream_resumed refs c).
Proof.
  induction refs as [|ref refs IH] using rev_ind; [apply append_only_refl|].
  rewrite handleOutputStream_resumed_snoc.
  eapply append_only_trans; [exact IH|].
  eapply append_only_trans; [|apply pushLogStream_append_only].
  unfold append_only. cbn. repeat split; done || by apply prefix_app_r.
Qed.

Lemma resume_append_only (k : nat) (t : Task) (o : Outcome) (c c' : Ctx) :
  resume k t o c = Some c' → append_only c c'.
Proof.
  destruct t as [call|call|ref|], o; cbn [resume actionCall_settled];
    stringify_cases; intros [= <-]; try apply append_only_refl.
  - unfold handleActionCallStream_resumed.
    destruct (aborted c); [apply append_only_refl|].
    eapply append_only_trans; [apply (pushLogStream_append_only call true)|].
    by apply append_only_same.
  - eapply append_only_trans; [apply (pushLogStream_append_only res true)|].
    by apply append_only_same.
  - eapply append_only_trans;
      [|eapply append_only_trans;
          [apply (pushLogStream_append_only
                    (error_result call serialized c) true)|]].
    + by apply (append_only_same c (used_uuid_and_clock c)).
    + by apply append_only_same.
  - by apply append_only_same.
  - apply handleOutputStream_resumed_append_only.
  - by apply append_only_same.
Qed.

Lemma handleChunk_append_only (evs : list ParserEvent) (s : Session) :
  append_only (snd s) (snd (handleChunk handler evs s)).
Proof.
  induction evs as [|ev evs IH] using rev_ind; [apply append_only_refl|].
  rewrite handleChunk_snoc. destruct (handleChunk handler evs s) as [ss c].
  unfold handleChunk. cbn [foldl fst snd] in *.
  destruct (handleEvent ev ss) as [ss' [[l el]|]]; cbn [snd]; [|done].
  eapply append_only_trans; [exact IH|apply handler_append_only].
Qed.

Lemma step_append_only (st : Step) (s s' : Session) :
  step s st = Some s' → append_only (snd s) (snd s').
Proof.
  destruct st as [evs| |k o]; cbn [step].
  - intros [= <-]. apply handleChunk_append_only.
  - intros [= <-]. by apply append_only_same.
  - destruct (pending (snd s) !! k) as [t|]; [|done].
    destruct (resume k t o (retire k (snd s))) as [c'|] eqn:Hres; [|done].
    intros [= <-]. cbn [snd].
    eapply append_only_trans; [|exact (resume_append_only _ _ _ _ _ Hres)].
    by apply append_only_same.
Qed.

(** Chain and working memory are append-only: whatever the chunks, the
    settled promises and the moment of cancellation, a session never
    removes, replaces or reorders a record of the chain or of one of the
    four sequences of the working memory. *)
Theorem run_append_only (steps : list Step) (s s' : Session) :
  run steps s = Some s' → append_only (snd s) (snd s').
Proof.
  revert s'. induction steps as [|st steps IH] using rev_ind; intros s'.
  - intros [= <-]. apply append_only_refl.
  - rewrite run_snoc. destruct (run steps s) as [s1|]; [|done]. cbn.
    intros Hstep. eapply append_only_trans; [by apply IH|].
    by eapply step_append_only.
Qed.

Lemma getOrCreateRef_state_index (index : Z) (kind : RefKind) (c : Ctx) :
  state_index (snd (getOrCreateRef index kind c)) = state_index c.
Proof. unfold getOrCreateRef. by destruct (logsByIndex c !! index). Qed.

Lemma handler_state_index (el : StackElement) (c : Ctx) :
  state_index (handler el c)
  = if aborted c then state_index c
    else Z.max (el_index el) (state_index c).
Proof.
  destruct (aborted c) eqn:Ha; [by rewrite handler_aborted|].
  pose proof (handler_shape el c Ha) as Hshape. cbv zeta in Hshape.
  set (c0 := set_state_index _ c) in *.
  destruct Hshape as [->|(kind & Hshape)]; [done|].
  pose proof (getOrCreateRef_state_index (el_index el) kind c0) as H1.
  set (c1 := snd (getOrCreateRef (el_index el) kind c0)) in *.
  destruct Hshape as [(log & _ & ->)|[(t & e & _ & ->)|(e & ->)]]; [|done..].
  by destruct (pushLogStream_frame log (el_done el) c1)
    as (_ & _ & _ & _ & _ & -> & _).
Qed.

(** [state.index] is the running maximum of the indices dispatched: after
    a burst of handler calls with the signal not fired it is at least its
    old value and at least the index of every element dispatched, and it
    is one of these values. *)
Theorem handler_burst_state_index (els : list StackElement) (c : Ctx) :
  aborted c = false →
  let c' := foldl (λ c el, handler el c) c els in
  (state_index c ≤ state_index c')%Z
  ∧ (∀ el, el ∈ els → (el_index el ≤ state_index c')%Z)
  ∧ (state_index c' = state_index c
     ∨ ∃ el, el ∈ els ∧ state_index c' = el_index el).
Proof.
  intros Ha. cbv zeta.
  induction els as [|el els (IHle & IHall & IHmax)] using rev_ind.
  { cbn. split; [lia|]. split; [by intros el ?%elem_of_nil|by left]. }
  rewrite foldl_snoc. set (c' := foldl _ c els) in *.
  assert (Ha' : aborted c' = false)
    by (by destruct (handler_burst_chain els c Ha) as (? & _)).
  rewrite handler_state_index, Ha'. split; [lia|]. split.
  - intros el0 [Hin| ->%list_elem_of_singleton]%elem_of_app; [|lia].
    specialize (IHall el0 Hin). lia.
  - destruct (Z.max_spec (el_index el) (state_index c')) as [[_ ->]|[_ ->]].
    + destruct IHmax as [?|(el0 & Hin & ?)]; [by left|].
      right. exists el0. split; [|done]. apply elem_of_app. by left.
    + right. exists el. split; [|done]. apply elem_of_app. right.
      by apply list_elem_of_singleton.
Qed.

Lemma handleOutputStream_resumed_state_index (refs : list Log) (c : Ctx) :
  state_index (handleOutputStream_resumed refs c) = state_index c.
Proof.
  induction refs as [|ref refs IH] using rev_ind; [done|].
  rewrite handleOutputStream_resumed_snoc.
  by destruct (pushLogStream_frame ref true
                 (outputs_push ref
                    (emit (LoggerDebug "agent:output" "Output processed status")
                       (handleOutputStream_resumed refs c))))
    as (_ & _ & _ & _ & _ & -> & _).
Qed.

Lemma resume_state_index (k : nat) (t : Task) (o : Outcome) (c c' : Ctx) :
  resume k t o c = Some c' → state_index c' = state_index c.
Proof.
  destruct t as [call|call|ref|], o; cbn [resume actionCall_settled];
    stringify_cases; intros [= <-]; try done.
  - unfold handleActionCallStream_resumed. destruct (aborted c); [done|].
    cbn. by destruct (pushLogStream_frame call true c)
      as (_ & _ & _ & _ & _ & -> & _).
  - cbn. by destruct (pushLogStream_frame res true c)
      as (_ & _ & _ & _ & _ & -> & _).
  - cbn. by destruct (pushLogStream_frame (error_result call serialized c)
                        true (used_uuid_and_clock c))
      as (_ & _ & _ & _ & _ & -> & _).
  - apply handleOutputStream_resumed_state_index.
Qed.

Lemma handleChunk_state_index (evs : list ParserEvent) (s : Session) :
  (state_index (snd s) ≤ state_index (snd (handleChunk handler evs s)))%Z.
Proof.
  induction evs as [|ev evs IH] using rev_ind; [done|].
  rewrite handleChunk_snoc. destruct (handleChunk handler evs s) as [ss c].
  unfold handleChunk. cbn [foldl fst snd] in *.
  destruct (handleEvent ev ss) as [ss' [[l el]|]]; cbn [snd]; [|done].
  rewrite handler_state_index. destruct (aborted c); lia.
Qed.

(** [state.index] never decreases in a session, whatever the order of
    chunks, settled promises and cancellation; only chunks can raise it. *)
Theorem run_state_index_monotone (steps : list Step) (s s' : Session) :
  run steps s = Some s' →
  (state_index (snd s) ≤ state_index (snd s'))%Z
  ∧ (Forall (λ st, ∀ evs, st ≠ Chunk evs) steps →
     state_index (snd s') = state_index (snd s)).
Proof.
  revert s'. induction steps as [|st steps IH] using rev_ind; intros s'.
  { by intros [= <-]. }
  rewrite run_snoc. destruct (run steps s) as [s1|]; [|done]. cbn.
  destruct (IH s1 eq_refl) as [IHle IHeq]. intros Hstep.
  destruct st as [evs| |k o]; cbn [step] in Hstep.
  - injection Hstep as <-. split.
    + pose proof (handleChunk_state_index evs s1). lia.
    + intros [_ Hlast%Forall_inv]%Forall_app. by destruct (Hlast evs).
  - injection Hstep as <-. cbn. split; [done|].
    intros [Hpre _]%Forall_app. by apply IHeq.
  - destruct (pending (snd s1) !! k) as [t|]; [|done].
    destruct (resume k t o (retire k (snd s1))) as [c'|] eqn:Hres; [|done].
    injection Hstep as <-. cbn [snd].
    rewrite (resume_state_index _ _ _ _ _ Hres). cbn. split; [done|].
    intros [Hpre _]%Forall_app. by apply IHeq.
Qed.

(** ** Tags without a branch, partial updates, and the output pipeline *)

(** An element whose tag has no branch in the [switch] only moves
    [state.index]: no ref is stored, nothing is logged, no hook or
    pipeline is called. *)
Theorem handler_ignores_other_tags (el : StackElement) (c : Ctx) :
  el_tag el ≠ "think" → el_tag el ≠ "reasoning" →
  el_tag el ≠ "action_call" → el_tag el ≠ "output" →
  handler el c
  = if aborted c then c
    else set_state_index (Z.max (el_index el) (state_index c)) c.
Proof.
  intros H1 H2 H3 H4. unfold handler. destruct (aborted c); [done|].
  by rewrite !bool_decide_eq_false_2 by done.
Qed.

(** A partial update ([done = false]) never commits and never starts
    work, whatever the tag and the attributes: the chain, the working
    memory, the waiting work and the tracked promises are as before, and
    at most one effect is added (the [onLogStream] call, or the logged
    error of an output without type). *)
Lemma handler_partial_update (el : StackElement) (c : Ctx) :
  el_done el = false →
  chain (handler el c) = chain c
  ∧ workingMemory (handler el c) = workingMemory c
  ∧ pending (handler el c) = pending c
  ∧ actionCalls (handler el c) = actionCalls c
  ∧ fulfilled (handler el c) = fulfilled c
  ∧ (effects (handler el c) = effects c
     ∨ (∃ log, effects (handler el c) = effects c ++ [OnLogStream log false])
     ∨ effects (handler el c)
       = effects c
         ++ [LoggerError "agent:output" "Missing output type attribute"]).
Proof.
  intros Hd. destruct (aborted c) eqn:Ha.
  { rewrite handler_aborted by done. repeat split; try done. by left. }
  unfold handler. rewrite Ha, Hd. set (c0 := set_state_index _ c).
  assert (Hfr : ∀ kind,
    let c1 := snd (getOrCreateRef (el_index el) kind c0) in
    chain c1 = chain c ∧ workingMemory c1 = workingMemory c
    ∧ effects c1 = effects c ∧ pending c1 = pending c
    ∧ actionCalls c1 = actionCalls c ∧ fulfilled c1 = fulfilled c).
  { intros kind.
    destruct (getOrCreateRef_frame (el_index el) kind c0)
      as (? & ? & ? & ? & _ & ? & _ & ? & _). done. }
  destruct (bool_decide (el_tag el = "think")
            || bool_decide (el_tag el = "reasoning")).
  { destruct (Hfr RThought) as (Hc & Hw & He & Hp & Hac & Hf).
    destruct (getOrCreateRef (el_index el) RThought c0) as [ref c1].
    cbn [snd] in *. rewrite pushLogStream_partial. cbn.
    rewrite Hc, Hw, He, Hp, Hac, Hf. repeat split; try done.
    right. left. by eexists. }
  destruct (bool_decide (el_tag el = "action_call")).
  { destruct (Hfr RActionCall) as (Hc & Hw & He & Hp & Hac & Hf).
    destruct (getOrCreateRef (el_index el) RActionCall c0) as [ref c1].
    cbn [snd] in *. unfold handleActionCallStream. cbn [negb].
    rewrite pushLogStream_partial. cbn.
    rewrite Hc, Hw, He, Hp, Hac, Hf. repeat split; try done.
    right. left. by eexists. }
  destruct (bool_decide (el_tag el = "output")).
  2:{ cbn. repeat split; try done. by left. }
  destruct (Hfr ROutput) as (Hc & Hw & He & Hp & Hac & Hf).
  destruct (getOrCreateRef (el_index el) ROutput c0) as [ref c1].
  cbn [snd] in *. destruct (falsy _).
  { cbn. rewrite Hc, Hw, He, Hp, Hac, Hf. repeat split; try done.
    by right; right. }
  unfold handleOutputStream. cbn [negb]. rewrite pushLogStream_partial. cbn.
  rewrite Hc, Hw, He, Hp, Hac, Hf. repeat split; try done.
  right. left. by eexists.
Qed.

Lemma pushLogStream_output (ref : Log) (c : Ctx) :
  log_ref ref = ROutput →
  pushLogStream ref true c = emit (OnLogStream ref true) (chain_push ref c).
Proof.
  intros Href. unfold pushLogStream. rewrite Href. by decide_refs.
Qed.

Lemma handleOutputStream_resumed_outputs (refs : list Log) (c : Ctx) :
  Forall (λ r, log_ref r = ROutput) refs →
  let c' := handleOutputStream_resumed refs c in
  effects c'
  = effects c
    ++ (refs ≫= λ r, [LoggerDebug "agent:output" "Output processed status";
                      OnLogStream r true])
  ∧ wm_thoughts (workingMemory c') = wm_thoughts (workingMemory c)
  ∧ wm_calls (workingMemory c') = wm_calls (workingMemory c)
  ∧ wm_results (workingMemory c') = wm_results (workingMemory c)
  ∧ pending c' = pending c ∧ aborted c' = aborted c
  ∧ actionCalls c' = actionCalls c.
Proof.
  cbv zeta. induction refs as [|ref refs IH] using rev_ind; intros Hall.
  { cbn. by rewrite app_nil_r. }
  apply Forall_app in Hall as [Hrefs Href%Forall_inv].
  destruct (IH Hrefs) as (He & Ht & Hc & Hr & Hp & Ha & Hac).
  rewrite handleOutputStream_resumed_snoc, pushLogStream_output by done.
  cbn. rewrite He, Ht, Hc, Hr, Hp, Ha, Hac, bind_app. cbn.
  rewrite <- !app_assoc. done.
Qed.

(** The output pipeline: when [handleOutput] resolves, each ref it
    returned is appended once to the chain and to the outputs of the
    working memory, in order; no ref means no record. The abort signal
    is not consulted on this path: the refs are committed in an aborted
    session as well. When the refs are output refs, each one is announced
    by one debug log line and one [onLogStream] call and nothing else
    changes. When [handleOutput] rejects, nothing is committed. *)
Lemma output_refs_committed
    (ss : StreamState) (c : Ctx) (k : nat) (outputRef : Log)
    (refs : list Log) (err : Err) :
  let s := (ss, with_pending k (TOutput outputRef) c) in
  (∃ c', step s (Settle k (Refs refs)) = Some (ss, c')
         ∧ chain c' = chain c ++ refs
         ∧ wm_outputs (workingMemory c')
           = wm_outputs (workingMemory c) ++ refs
         ∧ (Forall (λ r, log_ref r = ROutput) refs →
            effects c'
            = effects c
              ++ (refs ≫= λ r, [LoggerDebug "agent:output"
                                            "Output processed status";
                                OnLogStream r true])
            ∧ wm_thoughts (workingMemory c') = wm_thoughts (workingMemory c)
            ∧ wm_calls (workingMemory c') = wm_calls (workingMemory c)
            ∧ wm_results (workingMemory c') = wm_results (workingMemory c)
            ∧ pending c' = delete k (pending c)
            ∧ aborted c' = aborted c))
  ∧ (∃ c', step s (Settle k (Rejected err)) = Some (ss, c')
           ∧ chain c' = chain c ∧ workingMemory c' = workingMemory c
           ∧ effects c' = effects c).
Proof.
  cbv zeta. split.
  - eexists. rewrite (step_settle _ _ _ (TOutput outputRef))
      by (cbn; apply lookup_insert_eq).
    cbn [resume fmap option_fmap option_map]. split; [reflexivity|].
    set (c0 := retire k (with_pending k (TOutput outputRef) c)).
    destruct (handleOutputStream_resumed_commit refs c0) as [-> ->].
    split; [done|]. split; [done|]. intros Hall.
    destruct (handleOutputStream_resumed_outputs refs c0 Hall)
      as (-> & -> & -> & -> & -> & -> & _).
    repeat split; try done. cbn. apply delete_insert_eq.
  - eexists. rewrite (step_settle _ _ _ (TOutput outputRef))
      by (cbn; apply lookup_insert_eq).
    cbn [resume fmap option_fmap option_map]. by split.
Qed.

(** ** Tracked promises *)

Lemma tasks_grow_refl (c : Ctx) : tasks_grow c c.
Proof. by repeat split. Qed.

Lemma tasks_grow_trans (c1 c2 c3 : Ctx) :
  tasks_grow c1 c2 → tasks_grow c2 c3 → tasks_grow c1 c3.
Proof.
  intros (Ha1 & Hf1 & Hr1 & Hn1 & Hp1 & Hfr1)
    (Ha2 & Hf2 & Hr2 & Hn2 & Hp2 & Hfr2).
  repeat split.
  - by rewrite Ha2.
  - by rewrite Hf2.
  - by rewrite Hr2.
  - lia.
  - intros k Hk. rewrite Hp2 by lia. by apply Hp1.
  - intros Hfresh. by apply Hfr2, Hfr1.
Qed.

Lemma tasks_grow_same (c c' : Ctx) :
  actionCalls c' = actionCalls c → fulfilled c' = fulfilled c →
  rejected c' = rejected c →
  next_task c' = next_task c → pending c' = pending c → tasks_grow c c'.
Proof.
  intros Ha Hf Hr Hn Hp. unfold tasks_grow, tasks_fresh.
  rewrite Ha, Hf, Hr, Hn, Hp. by repeat split.
Qed.

Lemma tasks_grow_spawn (t : Task) (c : Ctx) : tasks_grow c (spawn t c).
Proof.
  repeat split; cbn; try done; try lia.
  - intros k Hk. apply lookup_insert_ne. lia.
  - intros Hfresh k t'. cbn. rewrite lookup_insert.
    case_decide; [lia|]. intros Hk%Hfresh. lia.
Qed.

Lemma getOrCreateRef_rejected (index : Z) (kind : RefKind) (c : Ctx) :
  rejected (snd (getOrCreateRef index kind c)) = rejected c.
Proof. unfold getOrCreateRef. by destruct (logsByIndex c !! index). Qed.

Lemma pushLogStream_grow (log : Log) (done : bool) (c : Ctx) :
  tasks_grow c (pushLogStream log done c).
Proof.
  destruct done; [|rewrite pushLogStream_partial; by apply tasks_grow_same].
  push_cases log; try by apply tasks_grow_same.
  trigger_cases c; try by apply tasks_grow_same.
  eapply tasks_grow_trans; [|apply tasks_grow_spawn].
  by apply tasks_grow_same.
Qed.

Lemma handler_grow (el : StackElement) (c : Ctx) :
  tasks_grow c (handler el c).
Proof.
  destruct (aborted c) eqn:Ha.
  { rewrite handler_aborted by done. apply tasks_grow_refl. }
  pose proof (handler_shape el c Ha) as Hshape. cbv zeta in Hshape.
  set (c0 := set_state_index _ c) in *.
  destruct Hshape as [->|(kind & Hshape)]; [by apply tasks_grow_same|].
  destruct (getOrCreateRef_frame (el_index el) kind c0)
    as (_ & _ & _ & Hp & Hn & Hac & _ & Hf & _).
  pose proof (getOrCreateRef_rejected (el_index el) kind c0) as Hr.
  set (c1 := snd (getOrCreateRef (el_index el) kind c0)) in *.
  apply (tasks_grow_trans _ c1); [by apply tasks_grow_same|].
  destruct Hshape as [(log & _ & ->)|[(t & e & _ & ->)|(e & ->)]].
  - apply pushLogStream_grow.
  - eapply tasks_grow_trans; [|apply tasks_grow_spawn].
    by apply tasks_grow_same.
  - by apply tasks_grow_same.
Qed.

Lemma handleChunk_grow (evs : list ParserEvent) (s : Session) :
  tasks_grow (snd s) (snd (handleChunk handler evs s)).
Proof.
  induction evs as [|ev evs IH] using rev_ind; [apply tasks_grow_refl|].
  rewrite handleChunk_snoc. destruct (handleChunk handler evs s) as [ss c].
  unfold handleChunk. cbn [foldl fst snd] in *.
  destruct (handleEvent ev ss) as [ss' [[l el]|]]; cbn [snd]; [|done].
  eapply tasks_grow_trans; [exact IH|apply handler_grow].
Qed.

Lemma handleOutputStream_resumed_grow (refs : list Log) (c : Ctx) :
  tasks_grow c (handleOutputStream_resumed refs c).
Proof.
  induction refs as [|ref refs IH] using rev_ind; [apply tasks_grow_refl|].
  rewrite handleOutputStream_resumed_snoc.
  eapply tasks_grow_trans; [exact IH|].
  eapply tasks_grow_trans; [|apply pushLogStream_grow].
  by apply tasks_grow_same.
Qed.










(** ** Identifiers of stored refs *)








(** ** Final updates: what the handler commits and what it defers *)

(** The final update of a [think] or [reasoning] element: the thought is
    appended once to the chain and once to the working memory before the
    handler returns. *)
Lemma handler_thought_done (el : StackElement) (c : Ctx) :
  aborted c = false →
  bool_decide (el_tag el = "think") || bool_decide (el_tag el = "reasoning")
  = true →
  el_done el = true →
  ∃ ref,
    logsByIndex (handler el c) !! el_index el = Some ref
    ∧ (logsByIndex c !! el_index el = None → pl_ref ref = RThought)
    ∧ chain (handler el c) = chain c ++ [thought_record ref el]
    ∧ workingMemory (handler el c)
      = committed_to (thought_record ref el) (workingMemory c).
Proof.
  intros Ha Htag Hd. unfold handler. rewrite Ha, Htag, Hd.
  set (c0 := set_state_index _ c).
  pose proof (getOrCreateRef_lookup (el_index el) RThought c0) as Hl.
  destruct (getOrCreateRef_frame (el_index el) RThought c0)
    as (Hc & Hw & _).
  assert (Hk : logsByIndex c !! el_index el = None →
               pl_ref (fst (getOrCreateRef (el_index el) RThought c0))
               = RThought).
  { unfold getOrCreateRef. cbn [logsByIndex c0 set_state_index].
    by intros ->. }
  destruct (getOrCreateRef (el_index el) RThought c0) as [ref c1].
  cbn [fst snd] in *. exists ref.
  rewrite pushLogStream_logsByIndex, pushLogStream_chain,
    pushLogStream_workingMemory, Hc, Hw.
  by repeat split.
Qed.

(** The final update of an [action_call] element: nothing is appended;
    [prepareActionCall] is called with the call and the rest of
    [handleActionCallStream] is left waiting for it. *)
Lemma handler_action_call_done (el : StackElement) (c : Ctx) :
  aborted c = false → el_tag el = "action_call" → el_done el = true →
  ∃ ref,
    logsByIndex (handler el c) !! el_index el = Some ref
    ∧ chain (handler el c) = chain c
    ∧ workingMemory (handler el c) = workingMemory c
    ∧ effects (handler el c)
      = effects c ++ [CallPrepareActionCall (call_record ref el)]
    ∧ pending (handler el c)
      = <[next_task c := TPrepare (call_record ref el)]> (pending c).
Proof.
  intros Ha Htag Hd. rewrite handler_action_call by done. cbv zeta.
  set (c0 := set_state_index _ c).
  pose proof (getOrCreateRef_lookup (el_index el) RActionCall c0) as Hl.
  destruct (getOrCreateRef_frame (el_index el) RActionCall c0)
    as (Hc & Hw & He & Hp & Hn & _).
  destruct (getOrCreateRef (el_index el) RActionCall c0) as [ref c1].
  cbn [fst snd] in *. exists ref.
  unfold handleActionCallStream. rewrite Hd. cbn.
  by rewrite Hc, Hw, He, Hp, Hn.
Qed.

(** The final update of an [output] element with a type: nothing is
    appended; [handleOutput] is called with the output ref and the loop of
    [handleOutputStream] is left waiting for it. *)
Lemma handler_output_done (el : StackElement) (c : Ctx) :
  aborted c = false → el_tag el = "output" →
  falsy (el_attributes el !! "type") = false → el_done el = true →
  ∃ ref,
    logsByIndex (handler el c) !! el_index el = Some ref
    ∧ chain (handler el c) = chain c
    ∧ workingMemory (handler el c) = workingMemory c
    ∧ effects (handler el c)
      = effects c ++ [CallHandleOutput (output_record ref el)]
    ∧ pending (handler el c)
      = <[next_task c := TOutput (output_record ref el)]> (pending c).
Proof.
  intros Ha Htag Hty Hd. rewrite handler_output by done. cbv zeta.
  rewrite Hty. set (c0 := set_state_index _ c).
  pose proof (getOrCreateRef_lookup (el_index el) ROutput c0) as Hl.
  destruct (getOrCreateRef_frame (el_index el) ROutput c0)
    as (Hc & Hw & He & Hp & Hn & _).
  destruct (getOrCreateRef (el_index el) ROutput c0) as [ref c1].
  cbn [fst snd] in *. exists ref.
  unfold handleOutputStream. rewrite Hd. cbn.
  by rewrite Hc, Hw, He, Hp, Hn.
Qed.

(** When [prepareActionCall] resolves: with the signal not fired the call
    is appended once to the chain and once to the working memory; with
    the signal fired nothing is appended. When it rejects nothing is
    appended either. *)
Lemma settle_prepare (ss : StreamState) (c : Ctx) (k : nat) (call : Log)
    (action : string) (err : Err) :
  let s := (ss, with_pending k (TPrepare call) c) in
  (∃ c', step s (Settle k (Prepared action)) = Some (ss, c')
         ∧ chain c' = chain c ++ (if aborted c then [] else [call])
         ∧ workingMemory c'
           = (if aborted c then workingMemory c
              else committed_to call (workingMemory c)))
  ∧ (∃ c', step s (Settle k (Rejected err)) = Some (ss, c')
           ∧ chain c' = chain c ∧ workingMemory c' = workingMemory c
           ∧ effects c' = effects c).
Proof.
  cbv zeta. split.
  - eexists. rewrite (step_settle _ _ _ (TPrepare call))
      by (cbn; apply lookup_insert_eq).
    cbn [resume fmap option_fmap option_map]. split; [reflexivity|].
    unfold handleActionCallStream_resumed.
    cbn [aborted retire with_pending].
    destruct (aborted c) eqn:Ha; [cbn; by rewrite app_nil_r|].
    cbn. by rewrite pushLogStream_chain, pushLogStream_workingMemory.
  - eexists. rewrite (step_settle _ _ _ (TPrepare call))
      by (cbn; apply lookup_insert_eq).
    cbn [resume fmap option_fmap option_map]. by split.
Qed.

(** ** The working memory mirrors the chain *)

Lemma mirrors_same (c c' : Ctx) :
  chain c' = chain c → workingMemory c' = workingMemory c →
  mirrors c → mirrors c'.
Proof. intros Hc Hw. unfold mirrors. by rewrite Hc, Hw. Qed.

Lemma of_kind_snoc (kind : RefKind) (logs : list Log) (log : Log) :
  of_kind kind (logs ++ [log])
  = of_kind kind logs ++ (if decide (log_ref log = kind) then [log] else []).
Proof.
  unfold of_kind. rewrite filter_app. f_equal.
Qed.

Lemma pushLogStream_mirrors (log : Log) (done : bool) (c : Ctx) :
  mirrors c → mirrors (pushLogStream log done c).
Proof.
  destruct done; [|rewrite pushLogStream_partial; by apply mirrors_same].
  intros (Ht & Hc & Hr & Ho). unfold mirrors.
  rewrite pushLogStream_chain, pushLogStream_workingMemory, !of_kind_snoc.
  cbv zeta. rewrite Ht, Hc, Hr.
  destruct (log_ref log); cbn; rewrite ?app_nil_r;
    repeat split; done || by apply sublist_inserts_r.
Qed.

Lemma handler_mirrors (el : StackElement) (c : Ctx) :
  mirrors c → mirrors (handler el c).
Proof.
  intros Hm. destruct (aborted c) eqn:Ha; [by rewrite handler_aborted|].
  pose proof (handler_shape el c Ha) as Hshape. cbv zeta in Hshape.
  set (c0 := set_state_index _ c) in *.
  destruct Hshape as [->|(kind & Hshape)]; [done|].
  destruct (getOrCreateRef_frame (el_index el) kind c0) as (Hc & Hw & _).
  set (c1 := snd (getOrCreateRef (el_index el) kind c0)) in *.
  assert (H1 : mirrors c1) by (by apply (mirrors_same c0)).
  destruct Hshape as [(log & _ & ->)|[(t & e & _ & ->)|(e & ->)]]; [|done..].
  by apply pushLogStream_mirrors.
Qed.

Lemma handleOutputStream_resumed_mirrors (refs : list Log) (c : Ctx) :
  mirrors c → mirrors (handleOutputStream_resumed refs c).
Proof.
  intros Hm. induction refs as [|ref refs IH] using rev_ind; [done|].
  rewrite handleOutputStream_resumed_snoc.
  destruct IH as (Ht & Hc & Hr & Ho).
  set (c1 := handleOutputStream_resumed refs c) in *.
  unfold mirrors.
  rewrite pushLogStream_chain, pushLogStream_workingMemory, !of_kind_snoc.
  cbv zeta. cbn [chain workingMemory outputs_push emit set_workingMemory
                 wm_thoughts wm_calls wm_results wm_outputs].
  rewrite Ht, Hc, Hr.
  destruct (log_ref ref); cbn; rewrite ?app_nil_r;
    repeat split; done || by apply sublist_app.
Qed.

Lemma resume_mirrors (k : nat) (t : Task) (o : Outcome) (c c' : Ctx) :
  resume k t o c = Some c' → mirrors c → mirrors c'.
Proof.
  destruct t as [call|call|ref|], o; cbn [resume actionCall_settled];
    stringify_cases; intros [= <-] Hm; try done.
  - unfold handleActionCallStream_resumed. destruct (aborted c); [done|].
    apply (mirrors_same (pushLogStream call true c)); [done..|].
    by apply pushLogStream_mirrors.
  - apply (mirrors_same (pushLogStream res true c)); [done..|].
    by apply pushLogStream_mirrors.
  - apply (mirrors_same (pushLogStream (error_result call serialized c) true
                           (used_uuid_and_clock c))); [done..|].
    by apply pushLogStream_mirrors.
  - by apply handleOutputStream_resumed_mirrors.
Qed.

Lemma handleChunk_mirrors (evs : list ParserEvent) (s : Session) :
  mirrors (snd s) → mirrors (snd (handleChunk handler evs s)).
Proof.
  intros Hm. induction evs as [|ev evs IH] using rev_ind; [done|].
  rewrite handleChunk_snoc. destruct (handleChunk handler evs s) as [ss c].
  unfold handleChunk. cbn [foldl fst snd] in *.
  destruct (handleEvent ev ss) as [ss' [[l el]|]]; cbn [snd]; [|done].
  by apply handler_mirrors.
Qed.

(** The working memory stays a mirror of the chain through a whole
    session: at every point its thoughts, calls and results are exactly
    the thoughts, calls and results of the chain, in chain order, and its
    outputs are records of the chain, in chain order. *)
Theorem run_mirrors (steps : list Step) (s s' : Session) :
  run steps s = Some s' → mirrors (snd s) → mirrors (snd s').
Proof.
  revert s'. induction steps as [|st steps IH] using rev_ind; intros s'.
  { by intros [= <-]. }
  rewrite run_snoc. destruct (run steps s) as [s1|]; [|done]. cbn.
  intros Hstep Hm. specialize (IH s1 eq_refl Hm).
  destruct st as [evs| |k o]; cbn [step] in Hstep.
  - injection Hstep as <-. by apply handleChunk_mirrors.
  - by injection Hstep as <-.
  - destruct (pending (snd s1) !! k) as [t|]; [|done].
    destruct (resume k t o (retire k (snd s1))) as [c'|] eqn:Hres; [|done].
    injection Hstep as <-. cbn [snd].
    by apply (resume_mirrors _ _ _ _ _ Hres).
Qed.

(** ** After cancellation *)

Lemma handleOutputStream_resumed_frame (refs : list Log) (c : Ctx) :
  aborted (handleOutputStream_resumed refs c) = aborted c
  ∧ actionCalls (handleOutputStream_resumed refs c) = actionCalls c.
Proof.
  induction refs as [|ref refs [IHa IHc]] using rev_ind; [done|].
  rewrite handleOutputStream_resumed_snoc.
  destruct (pushLogStream_frame ref true
              (outputs_push ref
                 (emit (LoggerDebug "agent:output" "Output processed status")
                    (handleOutputStream_resumed refs c))))
    as (-> & -> & _). done.
Qed.

Lemma resume_aborted (k : nat) (t : Task) (o : Outcome) (c c' : Ctx) :
  resume k t o c = Some c' → aborted c = true →
  aborted c' = true ∧ actionCalls c' = actionCalls c.
Proof.
  destruct t as [call|call|ref|], o; cbn [resume actionCall_settled];
    stringify_cases; intros [= <-] Ha; try done.
  - unfold handleActionCallStream_resumed. by rewrite Ha.
  - cbn. by destruct (pushLogStream_frame res true c) as (-> & -> & _).
  - cbn. by destruct (pushLogStream_frame (error_result call serialized c)
                        true (used_uuid_and_clock c)) as (-> & -> & _).
  - destruct (handleOutputStream_resumed_frame refs c) as [-> ->]. done.
Qed.

(** Cancellation is final: once the signal has fired, whatever chunks
    arrive and whatever promises settle afterwards, the signal stays set,
    no ref is stored for a new element, [state.index] does not move and
    no further execution is started or tracked. *)
Theorem run_after_abort (steps : list Step) (s s' : Session) :
  run steps s = Some s' → aborted (snd s) = true →
  aborted (snd s') = true
  ∧ logsByIndex (snd s') = logsByIndex (snd s)
  ∧ state_index (snd s') = state_index (snd s)
  ∧ actionCalls (snd s') = actionCalls (snd s).
Proof.
  revert s'. induction steps as [|st steps IH] using rev_ind; intros s'.
  { by intros [= <-]. }
  rewrite run_snoc. destruct (run steps s) as [s1|]; [|done]. cbn.
  intros Hstep Ha. destruct (IH s1 eq_refl Ha) as (Ha1 & Hl1 & Hi1 & Hc1).
  destruct st as [evs| |k o]; cbn [step] in Hstep.
  - injection Hstep as <-. destruct s1 as [ss1 c1]. cbn [snd] in *.
    by rewrite handleChunk_aborted.
  - by injection Hstep as <-.
  - destruct (pending (snd s1) !! k) as [t|]; [|done].
    destruct (resume k t o (retire k (snd s1))) as [c'|] eqn:Hres; [|done].
    injection Hstep as <-. cbn [snd].
    destruct (resume_aborted _ _ _ _ _ Hres Ha1) as [-> ->].
    rewrite (resume_logsByIndex _ _ _ _ _ Hres),
      (resume_state_index _ _ _ _ _ Hres).
    done.
Qed.

(** ** Rejected promises *)

Lemma resume_rejected (k : nat) (t : Task) (o : Outcome) (c c' : Ctx) :
  resume k t o c = Some c' →
  rejected c' = rejected c
  ∨ ∃ err, o = Rejected err ∧ JSON_stringify err = None
           ∧ rejected c' = {[k]} ∪ rejected c.
Proof.
  destruct t as [call|call|ref|], o; cbn [resume actionCall_settled];
    stringify_cases; intros [= <-]; try (by left).
  - left. unfold handleActionCallStream_resumed.
    destruct (aborted c); [done|]. cbn. apply pushLogStream_rejected.
  - left. cbn. apply pushLogStream_rejected.
  - left. cbn. by rewrite pushLogStream_rejected.
  - right. by exists err.
  - left. by destruct (handleOutputStream_resumed_grow refs c)
      as (_ & _ & -> & _).
Qed.

(** A promise of [actionCalls] rejects only when the execution has failed
    with a value on which [JSON.stringify] throws: every rejected promise
    of a session was rejected before the session or belongs to a step in
    which the execution rejected with such a value. Rejected promises
    stay rejected. *)
Theorem run_rejects_only_unserialisable (steps : list Step) (s s' : Session) :
  run steps s = Some s' →
  rejected (snd s) ⊆ rejected (snd s')
  ∧ ∀ k, k ∈ rejected (snd s') →
      k ∈ rejected (snd s)
      ∨ ∃ err, Settle k (Rejected err) ∈ steps ∧ JSON_stringify err = None.
Proof.
  revert s'. induction steps as [|st steps IH] using rev_ind; intros s'.
  { intros [= <-]. split; [done|]. intros k Hk. by left. }
  rewrite run_snoc. destruct (run steps s) as [s1|]; [|done]. cbn.
  intros Hstep. destruct (IH s1 eq_refl) as [IHsub IHk].
  assert (Hold : ∀ k, k ∈ rejected (snd s1) →
            k ∈ rejected (snd s)
            ∨ ∃ err, Settle k (Rejected err) ∈ steps ++ [st]
                     ∧ JSON_stringify err = None).
  { intros k [?|(err & Hin & Herr)]%IHk; [by left|].
    right. exists err. split; [|done]. apply elem_of_app. by left. }
  destruct st as [evs| |k o]; cbn [step] in Hstep.
  - injection Hstep as <-.
    destruct (handleChunk_grow evs s1) as (_ & _ & Hr & _).
    rewrite Hr. by split.
  - injection Hstep as <-. by split.
  - destruct (pending (snd s1) !! k) as [t|]; [|done].
    destruct (resume k t o (retire k (snd s1))) as [c'|] eqn:Hres; [|done].
    injection Hstep as <-. cbn [snd].
    destruct (resume_rejected _ _ _ _ _ Hres)
      as [Hr|(err & -> & Herr & Hr)]; rewrite Hr; cbn [rejected retire].
    + by split.
    + split; [by apply union_subseteq_r'|].
      intros k' [->%elem_of_singleton|Hin]%elem_of_union; [|by apply Hold].
      right. exists err. split; [|done]. apply elem_of_app. right.
      by apply list_elem_of_singleton.
Qed.

End ContextStreamHandler.

(** ** Properties of the element sequencer *)

Lemma open_after_snoc (calls : list Invocation) (i : Invocation) :
  open_after (calls ++ [i]) = open_step (open_after calls) i.
Proof. unfold open_after. by rewrite foldl_snoc. Qed.

Lemma calls_for_snoc (l : nat) (calls : list Invocation) (i : Invocation) :
  calls_for l (calls ++ [i])
  = calls_for l calls ++ (if decide (fst i = l) then [snd i] else []).
Proof.
  unfold calls_for. rewrite filter_app, fmap_app. f_equal.
  rewrite filter_cons, filter_nil. by destruct (decide (fst i = l)).
Qed.

Lemma calls_for_fresh (l : nat) (calls : list Invocation) :
  (∀ i, i ∈ calls → fst i ≠ l) → calls_for l calls = [].
Proof.
  intros Hfresh. unfold calls_for.
  induction calls as [|i calls IH]; [done|].
  rewrite filter_cons. destruct (decide (fst i = l)) as [Heq|_].
  - exfalso. apply (Hfresh i); [left | done].
  - apply IH. intros j Hj. apply Hfresh. by right.
Qed.

Lemma filter_ne_snoc (acc : list nat) (c : nat) :
  NoDup (acc ++ [c]) → filter (λ x, x ≠ c) (acc ++ [c]) = acc.
Proof.
  intros Hnd. apply NoDup_app in Hnd as (_ & Hdisj & _).
  rewrite filter_app, filter_cons, filter_nil.
  destruct (decide (c ≠ c)) as [Hne|_]; [done|].
  rewrite app_nil_r.
  induction acc as [|a acc IH]; [done|].
  rewrite filter_cons. destruct (decide (a ≠ c)) as [_|Heq].
  - f_equal. apply IH. intros x Hx. apply Hdisj. by right.
  - exfalso. apply (Hdisj a); [left|].
    apply list_elem_of_singleton. by destruct (decide (a = c)).
Qed.

Lemma updates_of_created (el : StackElement) :
  el_content el = [] → el_done el = false → updates_of el = [el].
Proof.
  intros Hc Hd. unfold updates_of. rewrite Hc. simpl.
  unfold with_content. destruct el; simpl in *; by subst.
Qed.

Lemma with_content_push (el : StackElement) (txt : string) (c : list string) :
  with_content (push_content el txt) c = with_content el c.
Proof. done. Qed.

Lemma updates_of_push (el : StackElement) (txt : string) :
  updates_of (push_content el txt)
  = updates_of el ++ [push_content el txt].
Proof.
  unfold updates_of.
  replace (el_content (push_content el txt)) with (el_content el ++ [txt]) by done.
  rewrite length_app. cbn [length].
  replace (length (el_content el) + 1) with (S (length (el_content el))) by lia.
  rewrite (seq_S (S (length (el_content el)))), fmap_app.
  cbn [fmap list_fmap Nat.add]. f_equal.
  - apply list_fmap_ext. intros k x Hk.
    apply lookup_seq in Hk as [-> Hlt].
    rewrite with_content_push. f_equal.
    rewrite take_app_le by lia. done.
  - f_equal. rewrite with_content_push.
    rewrite take_ge by (rewrite length_app; simpl; lia). done.
Qed.

(** What holds of the closure state [s] of [handleStream] and of the
    callback invocations [calls] made so far. *)
Record stream_inv (init : Z) (s : StreamState) (calls : list Invocation)
  : Prop := mkStreamInv {
  inv_heap : ∀ l el, heap s !! l = Some el →
    el_index el = (init + Z.of_nat l)%Z ∧ el_done el = false;
  inv_next : next_index s = (init + Z.of_nat (length (heap s)))%Z;
  inv_open : open_after calls = stack s ++ option_list (current s);
  inv_current : current s = None → stack s = [];
  inv_nodup : NoDup (open_after calls);
  inv_bound : ∀ l, l ∈ open_after calls → l < length (heap s);
  inv_calls : ∀ l el, (l, el) ∈ calls →
    l < length (heap s) ∧ el_index el = (init + Z.of_nat l)%Z;
  inv_lifetime : ∀ l el, heap s !! l = Some el →
    calls_for l calls
    = updates_of el
      ++ (if bool_decide (l ∈ open_after calls) then []
          else [with_done el true]);
}.

Lemma stream_inv_init (init : Z) : stream_inv init (init_stream init) [].
Proof.
  split; simpl; try done.
  - lia.
  - constructor.
  - intros l Hl. by apply elem_of_nil in Hl.
  - intros l el Hl. by apply elem_of_nil in Hl.
Qed.

Lemma open_step_fresh (acc : list nat) (l : nat) (el : StackElement) :
  el_done el = false → l ∉ acc → open_step acc (l, el) = acc ++ [l].
Proof.
  intros Hd Hl. unfold open_step. simpl. rewrite Hd.
  by rewrite bool_decide_eq_false_2.
Qed.

Lemma open_step_update (acc : list nat) (l : nat) (el : StackElement) :
  el_done el = false → l ∈ acc → open_step acc (l, el) = acc.
Proof.
  intros Hd Hl. unfold open_step. simpl. rewrite Hd.
  by rewrite bool_decide_eq_true_2.
Qed.

Lemma open_step_close (acc : list nat) (c : nat) (el : StackElement) :
  el_done el = true → NoDup (acc ++ [c]) →
  open_step (acc ++ [c]) (c, el) = acc.
Proof.
  intros Hd Hnd. unfold open_step. simpl. rewrite Hd.
  by apply filter_ne_snoc.
Qed.

Lemma feed_start_inv (init : Z) (s : StreamState) (calls : list Invocation)
    (name : string) (attrs : gmap string string) :
  stream_inv init s calls →
  stream_inv init (fst (feed (s, calls) (EvStart name attrs)))
                  (snd (feed (s, calls) (EvStart name attrs))).
Proof.
  intros [Hheap Hnext Hopen Hcur Hnd Hbound Hcalls Hlife].
  unfold feed. cbn [handleEvent fst snd].
  set (el := mkStackElement (next_index s) name attrs [] false).
  change (option_list (Some (length (heap s), el)))
    with [(length (heap s), el)].
  change (option_list (Some (length (heap s)))) with [length (heap s)].
  assert (Hfresh : length (heap s) ∉ open_after calls).
  { intros Hin. apply Hbound in Hin. lia. }
  assert (Hopen' : open_after (calls ++ [(length (heap s), el)])
                   = open_after calls ++ [length (heap s)]).
  { rewrite open_after_snoc. by apply open_step_fresh. }
  split; cbn [heap current stack next_index].
  - intros l e Hl. apply lookup_snoc_Some in Hl as [[_ Hl]|[-> <-]].
    + by apply Hheap.
    + split; [exact Hnext | done].
  - rewrite length_app. simpl. lia.
  - rewrite Hopen', Hopen. simpl.
    destruct (current s) as [c|] eqn:Hc; simpl; [done|].
    by rewrite app_nil_r.
  - done.
  - rewrite Hopen'. apply NoDup_app. split; [done|]. split.
    + intros x Hx Hx'. apply list_elem_of_singleton in Hx'. by subst.
    + apply NoDup_singleton.
  - intros l. rewrite Hopen', elem_of_app, list_elem_of_singleton, length_app.
    simpl. intros [Hl| ->]; [apply Hbound in Hl|]; lia.
  - intros l e. rewrite elem_of_app, list_elem_of_singleton, length_app. simpl.
    intros [Hl|Heq].
    + apply Hcalls in Hl as [? ?]. split; [lia|done].
    + inversion Heq; subst. split; [lia|exact Hnext].
  - intros l e Hl. rewrite calls_for_snoc, Hopen'. cbn [fst snd].
    apply lookup_snoc_Some in Hl as [[Hlt Hl]|[-> <-]].
    + destruct (decide (length (heap s) = l)) as [Heq|Hne]; [lia|].
      rewrite app_nil_r, (Hlife l e Hl). f_equal.
      destruct (bool_decide (l ∈ open_after calls)) eqn:Hb.
      * apply bool_decide_eq_true in Hb.
        rewrite bool_decide_eq_true_2; [done|]. apply elem_of_app. by left.
      * apply bool_decide_eq_false in Hb.
        rewrite bool_decide_eq_false_2; [done|].
        rewrite elem_of_app, list_elem_of_singleton. intros [?|?]; [done|lia].
    + destruct (decide (length (heap s) = length (heap s))) as [_|?]; [|done].
      rewrite calls_for_fresh.
      2:{ intros [l' e'] Hi. apply Hcalls in Hi as [? _]. simpl. lia. }
      rewrite bool_decide_eq_true_2.
      2:{ apply elem_of_app. right. by apply list_elem_of_singleton. }
      rewrite app_nil_r. simpl. by rewrite updates_of_created.
Qed.

Lemma removelast_last_split {A : Type} (l : list A) :
  l = removelast l ++ option_list (last l).
Proof.
  induction l as [|x l _] using rev_ind; [done|].
  by rewrite removelast_last, last_snoc.
Qed.

Lemma elem_of_open_ne (acc : list nat) (c l : nat) :
  l ≠ c → l ∈ acc ++ [c] ↔ l ∈ acc.
Proof.
  intros Hne. rewrite elem_of_app, list_elem_of_singleton. tauto.
Qed.

Lemma feed_text_inv (init : Z) (s : StreamState) (calls : list Invocation)
    (txt : string) :
  stream_inv init s calls →
  stream_inv init (fst (feed (s, calls) (EvText txt)))
                  (snd (feed (s, calls) (EvText txt))).
Proof.
  intros Hinv. unfold feed. cbn [handleEvent fst snd].
  destruct (current s) as [c|] eqn:Hc;
    [|cbn [fst snd option_list option_rect]; by rewrite app_nil_r].
  destruct (heap s !! c) as [el|] eqn:Hel;
    [|cbn [fst snd option_list option_rect]; by rewrite app_nil_r].
  destruct Hinv as [Hheap Hnext Hopen Hcur Hnd Hbound Hcalls Hlife].
  cbn [fst snd].
  change (option_list (Some (c, push_content el txt)))
    with [(c, push_content el txt)].
  destruct (Hheap c el Hel) as [Hidx Hdone].
  assert (Hin : c ∈ open_after calls).
  { rewrite Hopen, Hc. apply elem_of_app. right. by apply list_elem_of_singleton. }
  assert (Hopen' : open_after (calls ++ [(c, push_content el txt)])
                   = open_after calls).
  { rewrite open_after_snoc. by apply open_step_update. }
  split; cbn [heap current stack next_index]; rewrite ?Hopen', ?length_insert;
    try done.
  - intros l e Hl. apply list_lookup_insert_Some in Hl as [(<- & <- & _)|[_ Hl]].
    + done.
    + by apply Hheap.
  - by rewrite Hopen, Hc.
  - intros l e. rewrite elem_of_app, list_elem_of_singleton.
    intros [Hl|Heq]; [by apply Hcalls|].
    inversion Heq; subst l e. split; [by apply Hbound|done].
  - intros l e Hl. rewrite calls_for_snoc. cbn [fst snd].
    apply list_lookup_insert_Some in Hl as [(<- & <- & _)|[Hne Hl]].
    + destruct (decide (c = c)) as [_|?]; [|done].
      rewrite (Hlife c el Hel), updates_of_push.
      rewrite bool_decide_eq_true_2 by done. by rewrite !app_nil_r.
    + destruct (decide (c = l)) as [?|_]; [done|].
      by rewrite app_nil_r, (Hlife l e Hl).
Qed.

Lemma feed_end_inv (init : Z) (s : StreamState) (calls : list Invocation) :
  stream_inv init s calls →
  stream_inv init (fst (feed (s, calls) EvEnd)) (snd (feed (s, calls) EvEnd)).
Proof.
  intros [Hheap Hnext Hopen Hcur Hnd Hbound Hcalls Hlife].
  unfold feed. cbn [handleEvent fst snd].
  destruct (current s) as [c|] eqn:Hc.
  - assert (Hin : c ∈ open_after calls).
    { rewrite Hopen. apply elem_of_app. right. by apply list_elem_of_singleton. }
    destruct (heap s !! c) as [el|] eqn:Hel.
    2:{ apply Hbound in Hin. apply lookup_ge_None in Hel. lia. }
    cbn [fmap option_fmap option_map].
    change (option_list (Some (c, with_done el true)))
      with [(c, with_done el true)].
    change (option_list (Some c)) with [c] in Hopen.
    assert (Hnd' : NoDup (stack s ++ [c])) by by rewrite <- Hopen.
    assert (Hopen' : open_after (calls ++ [(c, with_done el true)]) = stack s).
    { rewrite open_after_snoc, Hopen. by apply open_step_close. }
    apply NoDup_app in Hnd' as (Hnds & Hdisj & _).
    assert (Hc' : c ∉ stack s).
    { intros Hx. apply (Hdisj c Hx). by apply list_elem_of_singleton. }
    split; cbn [heap current stack next_index]; rewrite ?Hopen'; try done.
    + apply removelast_last_split.
    + intros Hlast. apply last_None in Hlast. by rewrite Hlast.
    + intros l Hl. apply Hbound. rewrite Hopen. apply elem_of_app. by left.
    + intros l e. rewrite elem_of_app, list_elem_of_singleton.
      intros [Hl|Heq]; [by apply Hcalls|].
      inversion Heq; subst l e. split; [by apply Hbound|].
      by destruct (Hheap c el Hel).
    + intros l e Hl. rewrite calls_for_snoc. cbn [fst snd].
      destruct (decide (c = l)) as [<-|Hne].
      * rewrite Hel in Hl. inversion Hl; subst e.
        rewrite (Hlife c el Hel), bool_decide_eq_true_2 by done.
        rewrite bool_decide_eq_false_2 by done. by rewrite app_nil_r.
      * rewrite app_nil_r, (Hlife l e Hl), Hopen. f_equal.
        enough (Hb : bool_decide (l ∈ stack s ++ [c]) = bool_decide (l ∈ stack s))
          by (by rewrite Hb).
        apply bool_decide_ext. apply elem_of_open_ne. congruence.
  - cbn [option_list option_rect]. rewrite app_nil_r.
    rewrite (Hcur eq_refl) in *. simpl.
    split; cbn [heap current stack next_index]; done.
Qed.

Lemma feed_inv (init : Z) (s : StreamState) (calls : list Invocation)
    (ev : ParserEvent) :
  stream_inv init s calls →
  stream_inv init (fst (feed (s, calls) ev)) (snd (feed (s, calls) ev)).
Proof.
  destruct ev; [apply feed_start_inv | apply feed_end_inv | apply feed_text_inv].
Qed.

Lemma callbacks_snoc (evs : list ParserEvent) (ev : ParserEvent) (init : Z) :
  callbacks (evs ++ [ev]) init = feed (callbacks evs init) ev.
Proof. unfold callbacks. by rewrite foldl_snoc. Qed.

Lemma callbacks_inv (init : Z) (evs : list ParserEvent) :
  stream_inv init (fst (callbacks evs init)) (snd (callbacks evs init)).
Proof.
  induction evs as [|ev evs IH] using rev_ind.
  - apply stream_inv_init.
  - rewrite callbacks_snoc.
    destruct (callbacks evs init) as [s calls]. by apply feed_inv.
Qed.

(** [callbacks] is the sequence of invocations [handleStream] makes: running
    the loop with any callback [fn] is running [fn] over that sequence. *)
Lemma handleChunk_feed {S : Type} (fn : StackElement → S → S)
    (evs : list ParserEvent) (s : StreamState) (x : S)
    (calls : list Invocation) :
  handleChunk fn evs (s, foldl (λ x i, fn (snd i) x) x calls)
  = (fst (foldl feed (s, calls) evs),
     foldl (λ x i, fn (snd i) x) x (snd (foldl feed (s, calls) evs))).
Proof.
  revert s calls. induction evs as [|ev evs IH]; intros s calls; [done|].
  unfold handleChunk in *. cbn [foldl]. unfold feed at 2 4. cbn [fst snd].
  destruct (handleEvent ev s) as [s' [[l el]|]]; cbn [option_list option_rect].
  - rewrite <- IH. by rewrite foldl_snoc.
  - rewrite app_nil_r. apply IH.
Qed.


(** C2: every callback invocation about the [l]-th element created in a
    session carries the index [initialIndex + l] that the element received
    when its start event was handled: the creation update, every partial
    update and the final done snapshot. Hence two invocations about one
    element carry the same index, and an element created later carries a
    strictly larger index. *)
Theorem handleStream_index_stable (initialIndex : Z) (evs : list ParserEvent) :
  let s := fst (callbacks evs initialIndex) in
  let calls := snd (callbacks evs initialIndex) in
  (∀ l el, (l, el) ∈ calls → el_index el = (initialIndex + Z.of_nat l)%Z)
  ∧ (∀ l el, heap s !! l = Some el →
       el_index el = (initialIndex + Z.of_nat l)%Z
       ∧ head (calls_for l calls)
         = Some (mkStackElement (initialIndex + Z.of_nat l) (el_tag el)
                                (el_attributes el) [] false))
  ∧ (∀ l e1 e2, (l, e1) ∈ calls → (l, e2) ∈ calls → el_index e1 = el_index e2)
  ∧ (∀ l1 l2 e1 e2, (l1, e1) ∈ calls → (l2, e2) ∈ calls → l1 < l2 →
       (el_index e1 < el_index e2)%Z)
  ∧ next_index s = (initialIndex + Z.of_nat (length (heap s)))%Z.
Proof.
  cbv zeta. destruct (callbacks_inv initialIndex evs)
    as [Hheap Hnext _ _ _ _ Hcalls Hlife].
  repeat split.
  - intros l el Hl. by apply Hcalls in Hl as [_ ?].
  - by apply Hheap in H as [? _].
  - rename H into Hl. rewrite (Hlife l el Hl).
    destruct (Hheap l el Hl) as [<- Hd]. unfold updates_of. simpl.
    by rewrite <- Hd.
  - intros l e1 e2 H1 H2.
    apply Hcalls in H1 as [_ ->]. by apply Hcalls in H2 as [_ ->].
  - intros l1 l2 e1 e2 H1 H2 Hlt.
    apply Hcalls in H1 as [_ ->]. apply Hcalls in H2 as [_ ->]. lia.
  - exact Hnext.
Qed.

(** C3: the elements that are open (opened and not yet closed, as read off
    the callback invocations) are exactly [stack] followed by [current], in
    the order in which they were opened. An end event invokes the callback
    on the most recently opened of them, with the fields of that element
    and [done = true], removes it from the open elements, and makes the
    most recently opened of the remaining ones the current element; when
    no element is open it invokes nothing. *)
Theorem handleStream_end_closes_most_recent
    (initialIndex : Z) (evs : list ParserEvent) :
  let s := fst (callbacks evs initialIndex) in
  let calls := snd (callbacks evs initialIndex) in
  let s' := fst (handleEvent EvEnd s) in
  let cb := snd (handleEvent EvEnd s) in
  open_after calls = stack s ++ option_list (current s)
  ∧ match last (open_after calls) with
    | Some c =>
        current s = Some c
        ∧ (∃ el, heap s !! c = Some el ∧ cb = Some (c, with_done el true))
        ∧ open_after (calls ++ option_list cb) = removelast (open_after calls)
        ∧ current s' = last (removelast (open_after calls))
        ∧ stack s' ++ option_list (current s') = removelast (open_after calls)
    | None => cb = None ∧ current s' = None ∧ stack s' = []
    end.
Proof.
  cbv zeta.
  pose proof (callbacks_inv initialIndex evs) as Hinv.
  pose proof (feed_end_inv _ _ _ Hinv) as Hinv'.
  destruct Hinv as [Hheap _ Hopen Hcur Hnd Hbound _ _].
  destruct Hinv' as [_ _ Hopen' _ _ _ _ _].
  unfold feed in Hopen'. cbn [fst snd] in Hopen'.
  split; [exact Hopen|].
  destruct (handleEvent EvEnd (callbacks evs initialIndex).1) as [s' cb] eqn:Hev.
  cbn [fst snd] in *. cbn [handleEvent] in Hev. inversion Hev as [[Hs' Hcb]].
  clear Hev. rewrite Hopen.
  destruct (current (callbacks evs initialIndex).1) as [c|] eqn:Hc.
  - change (option_list (Some c)) with [c] in *.
    rewrite last_snoc, removelast_last.
    assert (Hin : c < length (heap (callbacks evs initialIndex).1)).
    { apply Hbound. rewrite Hopen. apply elem_of_app. right.
      by apply list_elem_of_singleton. }
    apply lookup_lt_is_Some in Hin as [el Hel].
    rewrite Hel in *. cbn [fmap option_fmap option_map] in *.
    assert (Hclose : open_after ((callbacks evs initialIndex).2
                                 ++ [(c, with_done el true)])
                     = stack (callbacks evs initialIndex).1).
    { rewrite open_after_snoc, Hopen. apply open_step_close; [done|].
      by rewrite <- Hopen. }
    subst s' cb. cbn [current stack].
    change (option_list (Some (c, with_done el true)))
      with [(c, with_done el true)].
    repeat split; try done.
    + by exists el.
    + symmetry. apply removelast_last_split.
  - rewrite (Hcur eq_refl) in *. subst s' cb. by cbn.
Qed.

Lemma updates_of_length (el : StackElement) :
  length (updates_of el) = S (length (el_content el)).
Proof. unfold updates_of. by rewrite length_fmap, length_seq. Qed.

(** C8, as amended: an element that has been closed by an end event has
    received exactly [2 + n] invocations, where [n] is the number of text
    fragments appended to it: one at creation with no content, one after
    each fragment, all with [done = false], and a last one with
    [done = true] and all the fragments. An element that is still open has
    received the first [1 + n] of these and none with [done = true]. *)
Theorem handleStream_callback_lifetime
    (initialIndex : Z) (evs : list ParserEvent) (l : nat) (el : StackElement) :
  let s := fst (callbacks evs initialIndex) in
  let calls := snd (callbacks evs initialIndex) in
  heap s !! l = Some el →
  el_done el = false
  ∧ Forall (λ e, el_done e = false) (updates_of el)
  ∧ if bool_decide (l ∈ stack s ++ option_list (current s))
    then calls_for l calls = updates_of el
         ∧ length (calls_for l calls) = 1 + length (el_content el)
    else calls_for l calls = updates_of el ++ [with_done el true]
         ∧ length (calls_for l calls) = 2 + length (el_content el).
Proof.
  cbv zeta. intros Hl.
  destruct (callbacks_inv initialIndex evs) as [Hheap _ Hopen _ _ _ _ Hlife].
  destruct (Hheap l el Hl) as [_ Hd].
  split; [done|]. split.
  { unfold updates_of. apply Forall_fmap, Forall_forall. by intros k _. }
  rewrite (Hlife l el Hl), <- Hopen.
  destruct (bool_decide (l ∈ open_after (callbacks evs initialIndex).2)).
  - rewrite app_nil_r. split; [done|]. by rewrite updates_of_length.
  - split; [done|]. rewrite length_app, updates_of_length. simpl. lia.
Qed.

(** The invocation count claimed for every element fails for an element
    that is never closed: it is invoked once, never with [done = true]. *)
Lemma unterminated_element_single_callback :
  el_done <$> calls_for 0 (snd (callbacks unterminated_think 0)) = [false]
  ∧ length (heap (fst (callbacks unterminated_think 0))) = 1.
Proof. split; reflexivity. Qed.

Lemma handleStream_callback_lifetime_closed_think :
  heap (fst (callbacks closed_think 0)) !! 0
  = Some (mkStackElement 0 "think" ∅ ["hello"] false)
  ∧ el_done (mkStackElement 0 "think" ∅ ["hello"] false) = false
  ∧ Forall (λ e, el_done e = false)
           (updates_of (mkStackElement 0 "think" ∅ ["hello"] false))
  ∧ calls_for 0 (snd (callbacks closed_think 0))
    = updates_of (mkStackElement 0 "think" ∅ ["hello"] false)
      ++ [with_done (mkStackElement 0 "think" ∅ ["hello"] false) true]
  ∧ length (calls_for 0 (snd (callbacks closed_think 0))) = 3.
Proof.
  split; [reflexivity|].
  exact (handleStream_callback_lifetime 0 closed_think 0
           (mkStackElement 0 "think" ∅ ["hello"] false) eq_refl).
Defined.

(** With a thought and a call in working memory but memory generation
    switched off in the agent, committing a result starts no episode. *)
Lemma episode_not_triggered_when_disabled :
  wm_thoughts (workingMemory (memory_with_cycle false)) = [example_thought]
  ∧ wm_calls (workingMemory (memory_with_cycle false)) = [example_call]
  ∧ effects (pushLogStream example_result true (memory_with_cycle false))
    = [OnLogStream example_result true]
  ∧ pending (pushLogStream example_result true (memory_with_cycle false)) = ∅.
Proof. repeat split; reflexivity. Qed.

(** ** Sessions: what a chunk commits *)

(** Within one chunk, with the abort signal not fired, the chain grows by
    exactly the thoughts of the [done = true] invocations for [think] and
    [reasoning] elements, one record per such invocation and in their
    order; calls and outputs are not committed before the chunk has been
    processed. *)
Lemma handleChunk_commits_thoughts
    (Date_now : nat → Z) (trim : string → string)
    (ss : StreamState) (c : Ctx) (evs : list ParserEvent) :
  aborted c = false →
  let c' := snd (handleChunk (handler Date_now trim) evs (ss, c)) in
  aborted c' = false
  ∧ chain c'
    = chain c
      ++ omap (committed_thought c') (snd <$> snd (foldl feed (ss, []) evs)).
Proof.
  intros Ha. cbv zeta.
  pose proof (handleChunk_feed (handler Date_now trim) evs ss c []) as Hfeed.
  cbn [foldl] in Hfeed. rewrite Hfeed. cbn [snd].
  rewrite <- (foldl_fmap (λ c el, handler Date_now trim el c)).
  destruct (handler_burst_chain Date_now trim
              (snd <$> snd (foldl feed (ss, []) evs)) c Ha) as (? & ? & _).
  done.
Qed.

(** ** Nesting, stray events and chunk boundaries *)

Lemma feed_text_keeps_stack (s : StreamState) (calls : list Invocation)
    (txt : string) :
  current (fst (feed (s, calls) (EvText txt))) = current s
  ∧ stack (fst (feed (s, calls) (EvText txt))) = stack s.
Proof.
  unfold feed. cbn [handleEvent fst snd].
  destruct (current s) as [c|] eqn:Hc; [|done].
  destruct (heap s !! c); cbn; by rewrite ?Hc.
Qed.

Lemma feed_balanced (evs : list ParserEvent) :
  balanced evs →
  ∀ s calls, (current s = None → stack s = []) →
    current (fst (foldl feed (s, calls) evs)) = current s
    ∧ stack (fst (foldl feed (s, calls) evs)) = stack s.
Proof.
  induction 1 as [|txt evs _ IH|name attrs body evs _ IHbody _ IHevs];
    intros s calls Hs; [done| |].
  - cbn [foldl]. destruct (feed_text_keeps_stack s calls txt) as [Hc Hst].
    destruct (feed (s, calls) (EvText txt)) as [s1 calls1]. cbn [fst] in *.
    destruct (IH s1 calls1) as [-> ->]; [by rewrite Hc, Hst|done].
  - cbn [foldl]. rewrite foldl_app. cbn [foldl].
    destruct (feed (s, calls) (EvStart name attrs)) as [s1 calls1] eqn:Hstart.
    unfold feed in Hstart. cbn [handleEvent fst snd] in Hstart.
    injection Hstart as <- <-.
    match goal with
    | |- context [foldl feed (?s1, ?calls1) body] =>
        destruct (IHbody s1 calls1) as [Hc2 Hst2]; [done|];
        destruct (foldl feed (s1, calls1) body) as [s2 calls2]
    end.
    cbn [fst current stack] in Hc2, Hst2.
    destruct (feed (s2, calls2) EvEnd) as [s3 calls3] eqn:Hend.
    unfold feed in Hend. cbn [handleEvent fst snd] in Hend.
    injection Hend as <- <-.
    match goal with
    | |- context [foldl feed (?s3, ?calls3) evs] =>
        destruct (IHevs s3 calls3) as [-> ->]
    end; cbn [current stack]; rewrite Hst2.
    + destruct (current s) as [c|] eqn:Hc.
      * rewrite last_snoc, removelast_last. by intros.
      * by rewrite (Hs eq_refl).
    + destruct (current s) as [c|] eqn:Hc.
      * by rewrite last_snoc, removelast_last.
      * by rewrite (Hs eq_refl).
Qed.

Lemma callbacks_app (pre evs : list ParserEvent) (init : Z) :
  callbacks (pre ++ evs) init = foldl feed (callbacks pre init) evs.
Proof. unfold callbacks. by rewrite foldl_app. Qed.

(** A well-nested run of events hands the position back: after any
    prefix, processing text and complete (possibly nested) elements leaves
    [current] and [stack] as they were, so text that follows a closed
    child goes to the parent again, and every element opened in the run
    has been closed. *)
Theorem balanced_restores_parent
    (pre evs : list ParserEvent) (initialIndex : Z) :
  balanced evs →
  let s := fst (callbacks pre initialIndex) in
  let s' := fst (callbacks (pre ++ evs) initialIndex) in
  current s' = current s
  ∧ stack s' = stack s
  ∧ open_after (snd (callbacks (pre ++ evs) initialIndex))
    = open_after (snd (callbacks pre initialIndex)).
Proof.
  intros Hbal. cbv zeta.
  destruct (callbacks_inv initialIndex pre) as [_ _ Hopen Hcur _ _ _ _].
  destruct (callbacks_inv initialIndex (pre ++ evs)) as [_ _ Hopen' _ _ _ _ _].
  rewrite Hopen, Hopen', callbacks_app.
  destruct (callbacks pre initialIndex) as [s calls]. cbn [fst snd] in *.
  destruct (feed_balanced evs Hbal s calls Hcur) as [-> ->]. done.
Qed.

(** Events outside any element are dropped: when no element is open, an
    end event or a text event changes nothing and invokes no callback. *)
Theorem stray_events_ignored
    (pre : list ParserEvent) (initialIndex : Z) (txt : string) :
  current (fst (callbacks pre initialIndex)) = None →
  callbacks (pre ++ [EvEnd]) initialIndex = callbacks pre initialIndex
  ∧ callbacks (pre ++ [EvText txt]) initialIndex = callbacks pre initialIndex.
Proof.
  intros Hnone.
  destruct (callbacks_inv initialIndex pre) as [_ _ _ Hcur _ _ _ _].
  rewrite !callbacks_snoc.
  destruct (callbacks pre initialIndex) as [s calls]. cbn [fst snd] in *.
  specialize (Hcur Hnone). unfold feed. cbn [handleEvent fst snd].
  rewrite Hnone, Hcur. cbn. rewrite app_nil_r.
  destruct s; cbn in *; by subst.
Qed.


(** ** Text fragments *)










(** ** The command-line input loop *)

(** The loop forwards the lines it reads in order, every one as user
    [admin], and stops at the line [exit], which is not forwarded. After
    the subscription has been cancelled at most the line that was being
    waited for is forwarded. With no [exit] and no cancellation every
    line is forwarded. *)
Theorem subscribe_loop_forwards (answers : list (string * bool)) :
  (∀ m, m ∈ subscribe_loop answers →
     sent_text m ≠ "exit" ∧ sent_user m = "admin"
     ∧ sent_context_user m = "admin")
  ∧ sent_text <$> subscribe_loop answers `prefix_of` (fst <$> answers)
  ∧ (∀ pre b rest, answers = pre ++ ("exit", b) :: rest →
       length (subscribe_loop answers) ≤ length pre)
  ∧ (∀ pre q rest, answers = pre ++ (q, true) :: rest →
       length (subscribe_loop answers) ≤ S (length pre))
  ∧ (Forall (λ a, fst a ≠ "exit" ∧ snd a = false) answers →
     sent_text <$> subscribe_loop answers = fst <$> answers).
Proof.
  induction answers as [|[q u] answers (IHall & IHpre & IHexit & IHunsub & IHfull)].
  { split; [by intros m ?%elem_of_nil|]. split; [done|].
    split; [by intros [|] ? ? ?|]. split; [by intros [|] ? ? ?|]. done. }
  cbn [subscribe_loop]. case_bool_decide as Hq.
  { subst q. split; [by intros m ?%elem_of_nil|].
    split; [apply prefix_nil|]. split; [cbn; lia|]. split; [cbn; lia|].
    by intros [[Hne _] _]%Forall_cons. }
  split; [|split; [|split; [|split]]].
  - intros m [->|Hm]%elem_of_cons; [done|].
    destruct u; [by apply elem_of_nil in Hm|]. by apply IHall.
  - cbn. apply prefix_cons. destruct u; [apply prefix_nil|done].
  - intros [|[q' u'] pre] b rest Heq; injection Heq as ? ? ?; subst; [done|].
    cbn. destruct u'; cbn; [lia|].
    specialize (IHexit pre b rest eq_refl). lia.
  - intros [|[q' u'] pre] q0 rest Heq; injection Heq as ? ? ?; subst; [done|].
    cbn. destruct u'; cbn; [lia|].
    specialize (IHunsub pre q0 rest eq_refl). lia.
  - intros [[_ Hu] Hrest]%Forall_cons. cbn in Hu. subst u. cbn.
    by rewrite IHfull.
Qed.

(** ** Cancellation and the element sequencer *)

(** The sequencer does not depend on its callback: the elements it
    creates and tracks are the same whatever [fn] does and whatever state
    [fn] works on. *)
Lemma handleChunk_sequencer {St : Type} (fn : StackElement → St → St)
    (evs : list ParserEvent) (ss : StreamState) (x : St) :
  fst (handleChunk fn evs (ss, x)) = fst (foldl feed (ss, []) evs).
Proof.
  pose proof (handleChunk_feed fn evs ss x []) as Hfeed.
  cbn [foldl] in Hfeed. by rewrite Hfeed.
Qed.

(** C7 (as amended): a call whose preparation completes when the signal
    has fired is neither committed nor executed: no execution is started
    or tracked for it, so it has no result. The sequencer has no access
    to the signal: a chunk that arrives after it is parsed as before, and
    a start event still creates the next element, makes it the current
    one and uses up its index. The handler, however, returns at once for
    every update it is given, so the whole chunk leaves the context as it
    is: no ref, no record, no hook call, no pipeline call. An execution
    that was already pending when the signal fired still has its result
    committed through [pushLogStream] when it completes. *)
Theorem cancellation_stops_handler_not_sequencer
    (Date_now : nat → Z) (JSON_stringify : Err → option (option string))
    (trim : string → string)
    (ss : StreamState) (c : Ctx) (el : StackElement) (evs : list ParserEvent)
    (name : string) (attrs : gmap string string)
    (k : nat) (call : Log) (action : string) (res : Log) :
  let handler := handler Date_now trim in
  let step := step Date_now JSON_stringify trim in
  (∃ c', step (ss, with_pending k (TPrepare call) (abort c))
              (Settle k (Prepared action)) = Some (ss, c')
         ∧ chain c' = chain c ∧ workingMemory c' = workingMemory c
         ∧ effects c' = effects c ∧ actionCalls c' = actionCalls c
         ∧ pending c' = delete k (pending c)
         ∧ fulfilled c' = fulfilled c
         ∧ rejected c' = rejected c)
  ∧ fst (handleChunk handler evs (ss, abort c))
    = fst (handleChunk handler evs (ss, not_aborted c))
  ∧ (let ss' := fst (handleChunk handler [EvStart name attrs] (ss, abort c)) in
     heap ss' = heap ss ++ [mkStackElement (next_index ss) name attrs [] false]
     ∧ current ss' = Some (length (heap ss))
     ∧ next_index ss' = (next_index ss + 1)%Z)
  ∧ handler el (abort c) = abort c
  ∧ snd (handleChunk handler evs (ss, abort c)) = abort c
  ∧ (∃ c', step (ss, with_pending k (TExec call) (abort c))
                (Settle k (Returned res)) = Some (ss, c')
           ∧ chain c' = chain c ++ [res]
           ∧ workingMemory c' = committed_to res (workingMemory c)
           ∧ fulfilled c' !! k = Some res).
Proof.
  cbv zeta.
  destruct (abort_skips_new_work Date_now JSON_stringify trim ss c el evs k
              call action res) as (Hel & Hevs & Hprep & Hexec).
  split; [exact Hprep|].
  split; [by rewrite !handleChunk_sequencer|].
  split; [done|].
  split; [exact Hel|]. split; [exact Hevs|].
  destruct Hexec as (c' & Hstep & Hc & Hw & Hf). exists c'.
  repeat split; try done.
  by rewrite Hw, pushLogStream_workingMemory.
Qed.

(** After the signal has fired, the start event of the next element still
    creates it: the element with index 1 is on the heap of the sequencer,
    it is the current element and its text is collected, while the
    handler has stored a ref for the first element only. *)
Lemma element_created_after_abort :
  (λ s, (el_index <$> heap (fst s), el_content <$> heap (fst s),
         current (fst s), next_index (fst s),
         size (logsByIndex (snd s))))
    <$> run demo_clock demo_stringify demo_trim
          [Chunk unterminated_think; Abort;
           Chunk [EvStart "think" ∅; EvText "late"]]
          (init_stream 0, init_ctx false)
  = Some ([0%Z; 1%Z], [[]; ["late"]], Some 1, 2%Z, 1).
Proof. vm_compute; reflexivity. Qed.

(** ** Which update commits a record *)

(** C1 (as amended): every commit is one call [pushLogStream(log, true)],
    which appends the record once to the chain and once to the
    working-memory sequence of its kind, while [pushLogStream(log, false)]
    only invokes the [onLogStream] hook. An update with [done = false]
    leaves the chain, the working memory and the waiting work as they are,
    whatever the tag: it adds at most the hook call (or the logged error
    of an output without type). With the signal not fired, a thought is
    committed by the handler call of its final update: in a chunk the
    chain grows by exactly one record per [done = true] update of a
    [think] or [reasoning] element.
    The final update of an [action_call] or [output] element appends
    nothing: it calls [prepareActionCall] or [handleOutput] and leaves the
    rest waiting. The call is appended once when [prepareActionCall] has
    resolved, unless the signal has fired by then; the output refs are
    appended once each when [handleOutput] has resolved; when either
    promise rejects nothing is appended. *)
Theorem records_committed_once
    (Date_now : nat → Z) (JSON_stringify : Err → option (option string))
    (trim : string → string)
    (ss : StreamState) (c : Ctx) (i : Z) (tag : string) (reasoning : bool)
    (attrs : gmap string string) (a : Ascii.ascii) (type : string)
    (content : list string) (evs : list ParserEvent) (k : nat)
    (log call outputRef : Log) (action : string) (refs : list Log)
    (err : Err) :
  let handler := handler Date_now trim in
  let step := step Date_now JSON_stringify trim in
  let partial := mkStackElement i tag attrs content false in
  let thought :=
    mkStackElement i (if reasoning then "reasoning" else "think") attrs
                   content true in
  let action_call := mkStackElement i "action_call" attrs content true in
  let output :=
    mkStackElement i "output" (<["type" := String a type]> attrs) content
                   true in
  (pushLogStream log false c = emit (OnLogStream log false) c
   ∧ chain (pushLogStream log true c) = chain c ++ [log]
   ∧ workingMemory (pushLogStream log true c)
     = committed_to log (workingMemory c))
  ∧ (chain (handler partial c) = chain c
     ∧ workingMemory (handler partial c) = workingMemory c
     ∧ pending (handler partial c) = pending c
     ∧ (effects (handler partial c) = effects c
        ∨ (∃ log, effects (handler partial c)
                  = effects c ++ [OnLogStream log false])
        ∨ effects (handler partial c)
          = effects c
            ++ [LoggerError "agent:output" "Missing output type attribute"]))
  ∧ (∃ ref,
       logsByIndex (handler thought (not_aborted c)) !! i = Some ref
       ∧ chain (handler thought (not_aborted c))
         = chain c ++ [thought_record ref thought]
       ∧ workingMemory (handler thought (not_aborted c))
         = committed_to (thought_record ref thought) (workingMemory c)
       ∧ (logsByIndex c !! i = None →
          wm_thoughts (workingMemory (handler thought (not_aborted c)))
          = wm_thoughts (workingMemory c) ++ [thought_record ref thought]))
  ∧ (let c' := snd (handleChunk handler evs (ss, not_aborted c)) in
     chain c'
     = chain c
       ++ omap (committed_thought c') (snd <$> snd (foldl feed (ss, []) evs)))
  ∧ (∃ ref,
       logsByIndex (handler action_call (not_aborted c)) !! i = Some ref
       ∧ chain (handler action_call (not_aborted c)) = chain c
       ∧ workingMemory (handler action_call (not_aborted c))
         = workingMemory c
       ∧ effects (handler action_call (not_aborted c))
         = effects c ++ [CallPrepareActionCall (call_record ref action_call)]
       ∧ pending (handler action_call (not_aborted c))
         = <[next_task c := TPrepare (call_record ref action_call)]>
             (pending c))
  ∧ (∃ c', step (ss, with_pending k (TPrepare call) c)
                (Settle k (Prepared action)) = Some (ss, c')
           ∧ chain c' = chain c ++ (if aborted c then [] else [call])
           ∧ workingMemory c'
             = (if aborted c then workingMemory c
                else committed_to call (workingMemory c)))
  ∧ (∃ c', step (ss, with_pending k (TPrepare call) c)
                (Settle k (Rejected err)) = Some (ss, c')
           ∧ chain c' = chain c ∧ workingMemory c' = workingMemory c
           ∧ effects c' = effects c)
  ∧ (∃ ref,
       logsByIndex (handler output (not_aborted c)) !! i = Some ref
       ∧ chain (handler output (not_aborted c)) = chain c
       ∧ workingMemory (handler output (not_aborted c)) = workingMemory c
       ∧ effects (handler output (not_aborted c))
         = effects c ++ [CallHandleOutput (output_record trim ref output)]
       ∧ pending (handler output (not_aborted c))
         = <[next_task c := TOutput (output_record trim ref output)]>
             (pending c))
  ∧ (∃ c', step (ss, with_pending k (TOutput outputRef) c)
                (Settle k (Refs refs)) = Some (ss, c')
           ∧ chain c' = chain c ++ refs
           ∧ wm_outputs (workingMemory c')
             = wm_outputs (workingMemory c) ++ refs
           ∧ (Forall (λ r, log_ref r = ROutput) refs →
              wm_thoughts (workingMemory c') = wm_thoughts (workingMemory c)
              ∧ wm_calls (workingMemory c') = wm_calls (workingMemory c)
              ∧ wm_results (workingMemory c')
                = wm_results (workingMemory c)))
  ∧ (∃ c', step (ss, with_pending k (TOutput outputRef) c)
                (Settle k (Rejected err)) = Some (ss, c')
           ∧ chain c' = chain c ∧ workingMemory c' = workingMemory c
           ∧ effects c' = effects c).
Proof.
  cbv zeta.
  split.
  { split; [apply pushLogStream_partial|].
    split; [apply pushLogStream_chain|].
    by rewrite pushLogStream_workingMemory. }
  split.
  { destruct (handler_partial_update Date_now trim
                (mkStackElement i tag attrs content false) c eq_refl)
      as (? & ? & ? & _ & _ & ?).
    done. }
  split.
  { destruct (handler_thought_done Date_now trim
                (mkStackElement i (if reasoning then "reasoning" else "think")
                   attrs content true) (not_aborted c) eq_refl)
      as (ref & Hl & Hk & Hc & Hw); [by destruct reasoning|done|].
    exists ref. repeat split; try done.
    intros Hnone. rewrite Hw. unfold committed_to.
    change (log_ref (thought_record ref _)) with (pl_ref ref).
    by rewrite (Hk Hnone). }
  split.
  { by destruct (handleChunk_commits_thoughts Date_now trim ss
                   (not_aborted c) evs eq_refl) as [_ ?]. }
  split.
  { destruct (handler_action_call_done Date_now trim
                (mkStackElement i "action_call" attrs content true)
                (not_aborted c) eq_refl eq_refl eq_refl)
      as (ref & ?). by exists ref. }
  destruct (settle_prepare Date_now JSON_stringify trim ss c k call action err)
    as [Hprep Hrej].
  split; [exact Hprep|]. split; [exact Hrej|].
  split.
  { destruct (handler_output_done Date_now trim
                (mkStackElement i "output" (<["type" := String a type]> attrs)
                   content true)
                (not_aborted c) eq_refl eq_refl) as (ref & ?);
      [|done|by exists ref].
    cbn [el_attributes]. by rewrite lookup_insert_eq. }
  destruct (output_refs_committed Date_now JSON_stringify trim ss c k
              outputRef refs err) as [(c' & Hstep & Hc & Ho & Hrest) Hout].
  split; [|exact Hout].
  exists c'. split; [done|]. split; [done|]. split; [done|].
  intros Hall. by destruct (Hrest Hall) as (_ & ? & ? & ? & _).
Qed.

(** The final update of an [action_call] element is dispatched (the
    element receives one update with [done = false] and one with
    [done = true]) and the call is in neither the chain nor the working
    memory afterwards: it waits for [prepareActionCall]. When the abort
    signal fires before that promise resolves, the call is never
    appended. *)
Lemma call_not_committed_on_final_update :
  el_done <$> calls_for 0 (snd (callbacks call_only 0)) = [false; true]
  ∧ (λ s, (chain (snd s), wm_calls (workingMemory (snd s)),
           size (pending (snd s))))
      <$> run demo_clock demo_stringify demo_trim
            [Chunk call_only] (init_stream 0, init_ctx false)
    = Some ([], [], 1)
  ∧ (λ s, (chain (snd s), wm_calls (workingMemory (snd s)),
           size (pending (snd s))))
      <$> run demo_clock demo_stringify demo_trim
            [Chunk call_only; Abort; Settle 0 (Prepared "foo")]
            (init_stream 0, init_ctx false)
    = Some ([], [], 0).
Proof. repeat split; vm_compute; reflexivity. Qed.

(** ** Counting elements *)

Lemma feed_counts (s : StreamState) (calls : list Invocation)
    (ev : ParserEvent) :
  length (heap (fst (feed (s, calls) ev)))
  = length (heap s) + (if ev is EvStart _ _ then 1 else 0)
  ∧ length (snd (feed (s, calls) ev)) ≤ S (length calls).
Proof.
  unfold feed. destruct ev as [name attrs| |txt]; cbn [handleEvent fst snd].
  - cbn. rewrite !length_app. cbn. lia.
  - split; [cbn; lia|]. rewrite length_app.
    destruct (current s) as [c|]; [destruct (heap s !! c)|]; cbn; lia.
  - destruct (current s) as [c|]; [destruct (heap s !! c)|]; cbn;
      rewrite ?length_insert, ?length_app; cbn; lia.
Qed.

(** Every start event creates exactly one element and uses exactly one
    index, whatever its tag and nesting; no other event creates one; and
    an event causes at most one callback invocation. *)
Theorem callbacks_counts (evs : list ParserEvent) (initialIndex : Z) :
  let starts := length (filter (λ ev, is_start ev = true) evs) in
  length (heap (fst (callbacks evs initialIndex))) = starts
  ∧ next_index (fst (callbacks evs initialIndex))
    = (initialIndex + Z.of_nat starts)%Z
  ∧ length (snd (callbacks evs initialIndex)) ≤ length evs.
Proof.
  cbv zeta.
  rewrite (inv_next _ _ _ (callbacks_inv initialIndex evs)).
  enough (Hlen : length (heap (fst (callbacks evs initialIndex)))
                 = length (filter (λ ev, is_start ev = true) evs)
                 ∧ length (snd (callbacks evs initialIndex)) ≤ length evs)
    by (destruct Hlen as [-> ?]; done).
  induction evs as [|ev evs [IHh IHc]] using rev_ind; [done|].
  rewrite callbacks_snoc, filter_app, !length_app.
  destruct (callbacks evs initialIndex) as [s calls]. cbn [fst snd] in *.
  destruct (feed_counts s calls ev) as [-> Hc]. rewrite IHh.
  split; [|cbn; lia]. f_equal.
  rewrite filter_cons, filter_nil.
  by destruct ev; case_decide.
Qed.

(** ** Concrete sessions *)

(** The call of an [action_call] element is not committed at its
    structural position: when the same chunk holds a later [think]
    element, [handleChunk] has committed that thought (index 1, id 1)
    before the continuation that commits the call (index 0, id 0) can run;
    the call lands behind it. *)
Lemma call_committed_after_later_thought :
  (λ s, chain (snd s)) <$>
    run demo_clock demo_stringify demo_trim
      [Chunk call_then_thought] (init_stream 0, init_ctx false)
  = Some [mkLog RThought 1 1001 false (Some "done") None None None
                DataUndefined]
  ∧ (λ s, chain (snd s)) <$>
      run demo_clock demo_stringify demo_trim
        [Chunk call_then_thought; Settle 0 (Prepared "foo")]
        (init_stream 0, init_ctx false)
    = Some [mkLog RThought 1 1001 false (Some "done") None None None
                  DataUndefined;
            mkLog RActionCall 0 1000 false (Some "{}") (Some "foo") None None
                  DataUndefined].
Proof. split; vm_compute; reflexivity. Qed.

Lemma episode_trigger_condition_fires :
  log_ref example_result = RActionResult
  ∧ ∃ t a, CallGenerateEpisode t a example_result
           ∈ drop (length (effects (memory_with_cycle true)))
                  (effects (pushLogStream example_result true
                              (memory_with_cycle true))).
Proof.
  split; [reflexivity|].
  apply (proj2 (proj1 (episode_trigger_condition demo_clock demo_stringify
                         example_result (memory_with_cycle true) 0 "boom"
                         eq_refl))).
  repeat split; discriminate.
Defined.

(** A handler failure in a running session: the call and then the error
    result are in the chain, and the session goes on. *)
Example failed_action_session :
  (λ s, log_data <$> chain (snd s)) <$>
    run demo_clock demo_stringify demo_trim
      [Chunk call_only; Settle 0 (Prepared "foo"); Settle 1 (Rejected "boom");
       Chunk late_thought]
      (init_stream 0, init_ctx false)
  = Some [DataUndefined; DataError (Some "boom"); DataUndefined].
Proof. vm_compute; reflexivity. Qed.

(** A handler failure that cannot be serialised: [JSON.stringify] throws
    on the rejection value, so the call stays without a result and the
    promise kept in [actionCalls] is a rejected one. *)
Lemma unserialisable_failure_rejects :
  demo_stringify "circular" = None
  ∧ ∃ c', step demo_clock demo_stringify demo_trim
               (init_stream 0,
                with_pending 1 (TExec example_call) (init_ctx false))
               (Settle 1 (Rejected "circular"))
          = Some (init_stream 0, c')
          ∧ chain c' = [] ∧ workingMemory c' = workingMemory (init_ctx false)
          ∧ effects c' = [] ∧ fulfilled c' = ∅ ∧ 1 ∈ rejected c'.
Proof.
  split; [reflexivity|].
  destruct (failed_action_result_unless_unserialisable demo_clock
              demo_stringify demo_trim (init_stream 0) (init_ctx false) 1
              example_call "circular") as (c' & Hstep & _ & Hrest).
  exists c'. split; [exact Hstep|]. exact Hrest.
Defined.

Example unserialisable_failure_session :
  (λ s, (log_ref <$> chain (snd s), actionCalls (snd s),
         size (fulfilled (snd s)), elements (rejected (snd s))))
    <$> run demo_clock demo_stringify demo_trim
          [Chunk call_only; Settle 0 (Prepared "foo");
           Settle 1 (Rejected "circular")]
          (init_stream 0, init_ctx false)
  = Some ([RActionCall], [1], 0, [1]).
Proof. vm_compute; reflexivity. Qed.

(** Cancellation in a running session: the element that arrives after the
    signal leaves no trace, the execution that was pending delivers its
    result. *)
Example cancelled_session :
  (λ s, (log_ref <$> chain (snd s), size (logsByIndex (snd s)))) <$>
    run demo_clock demo_stringify demo_trim
      [Chunk call_only; Settle 0 (Prepared "foo"); Abort; Chunk late_thought;
       Settle 1 (Returned example_result)]
      (init_stream 0, init_ctx false)
  = Some ([RActionCall; RActionResult], 1).
Proof. vm_compute; reflexivity. Qed.

(** A call prepared after the signal is dropped: nothing is committed and
    no execution is pending. *)
Example cancelled_before_execution :
  (λ s, (chain (snd s), size (pending (snd s)), actionCalls (snd s))) <$>
    run demo_clock demo_stringify demo_trim
      [Chunk call_only; Abort; Settle 0 (Prepared "foo")]
      (init_stream 0, init_ctx false)
  = Some ([], 0, []).
Proof. vm_compute; reflexivity. Qed.

(** ** Instances of the session properties *)

Lemma handleChunk_commits_thoughts_demo :
  aborted (init_ctx false) = false
  ∧ chain (snd (handleChunk (handler demo_clock demo_trim) call_then_thought
                  (init_stream 0, init_ctx false)))
    = chain (init_ctx false)
      ++ omap (committed_thought
                 (snd (handleChunk (handler demo_clock demo_trim)
                         call_then_thought (init_stream 0, init_ctx false))))
              (snd <$> snd (foldl feed (init_stream 0, []) call_then_thought)).
Proof.
  split; [reflexivity|].
  exact (proj2 (handleChunk_commits_thoughts demo_clock demo_trim
                  (init_stream 0) (init_ctx false) call_then_thought eq_refl)).
Defined.

Lemma run_append_only_demo :
  ∃ s', run demo_clock demo_stringify demo_trim demo_session
            (init_stream 0, init_ctx true) = Some s'
        ∧ append_only (init_ctx true) (snd s').
Proof.
  eexists. split; [vm_compute; reflexivity|].
  apply (run_append_only demo_clock demo_stringify demo_trim demo_session
           (init_stream 0, init_ctx true)).
  vm_compute; reflexivity.
Defined.

Lemma handler_burst_state_index_demo :
  aborted (init_ctx false) = false
  ∧ state_index (foldl (λ c el, handler demo_clock demo_trim el c)
                       (init_ctx false) think_elements) = 5%Z
  ∧ ∀ el, el ∈ think_elements →
      (el_index el
       ≤ state_index (foldl (λ c el, handler demo_clock demo_trim el c)
                            (init_ctx false) think_elements))%Z.
Proof.
  split; [reflexivity|]. split; [vm_compute; reflexivity|].
  exact (proj1 (proj2 (handler_burst_state_index demo_clock demo_trim
                         think_elements (init_ctx false) eq_refl))).
Defined.

Lemma run_state_index_monotone_demo :
  ∃ s', run demo_clock demo_stringify demo_trim demo_session
            (init_stream 0, init_ctx true) = Some s'
        ∧ (state_index (init_ctx true) ≤ state_index (snd s'))%Z.
Proof.
  eexists. split; [vm_compute; reflexivity|].
  apply (run_state_index_monotone demo_clock demo_stringify demo_trim
           demo_session (init_stream 0, init_ctx true)).
  vm_compute; reflexivity.
Defined.

Lemma handler_ignores_response :
  "response" ∈ defaultTags
  ∧ handler demo_clock demo_trim response_element (init_ctx false)
    = set_state_index 3 (init_ctx false).
Proof.
  split; [unfold defaultTags; set_solver|].
  apply (handler_ignores_other_tags demo_clock demo_trim response_element
           (init_ctx false)); discriminate.
Defined.

Lemma handler_partial_update_demo :
  el_done (mkStackElement 0 "think" ∅ ["so"] false) = false
  ∧ chain (handler demo_clock demo_trim
             (mkStackElement 0 "think" ∅ ["so"] false) (init_ctx false))
    = [].
Proof.
  split; [reflexivity|].
  apply (handler_partial_update demo_clock demo_trim
           (mkStackElement 0 "think" ∅ ["so"] false) (init_ctx false)).
  reflexivity.
Defined.




Lemma balanced_restores_parent_demo :
  balanced nested_think
  ∧ current (fst (callbacks (response_open ++ nested_think) 0)) = Some 0
  ∧ current (fst (callbacks response_open 0)) = Some 0.
Proof.
  assert (Hbal : balanced nested_think).
  { apply (balanced_element "think" ∅ [EvText "b"] [EvText "c"]);
      repeat constructor. }
  split; [exact Hbal|].
  destruct (balanced_restores_parent response_open nested_think 0 Hbal)
    as (Hcur & _ & _).
  split; [rewrite Hcur|]; reflexivity.
Defined.

Lemma stray_events_ignored_demo :
  current (fst (callbacks closed_think 0)) = None
  ∧ callbacks (closed_think ++ [EvEnd]) 0 = callbacks closed_think 0.
Proof.
  split; [reflexivity|].
  apply (stray_events_ignored closed_think 0 "x"). reflexivity.
Defined.



Lemma run_mirrors_demo :
  ∃ s', run demo_clock demo_stringify demo_trim demo_session
            (init_stream 0, init_ctx true) = Some s'
        ∧ log_ref <$> chain (snd s') = [RThought; RActionCall; RActionResult;
                                        RThought]
        ∧ mirrors (snd s').
Proof.
  eexists. split; [vm_compute; reflexivity|]. split; [reflexivity|].
  apply (run_mirrors demo_clock demo_stringify demo_trim demo_session
           (init_stream 0, init_ctx true)).
  - vm_compute; reflexivity.
  - by repeat split.
Defined.

Lemma run_after_abort_demo :
  ∃ s', run demo_clock demo_stringify demo_trim
            [Chunk late_thought; Settle 0 (Prepared "foo")]
            (init_stream 1,
             with_pending 0 (TPrepare example_call) (abort (init_ctx false)))
        = Some s'
        ∧ aborted (snd s') = true
        ∧ logsByIndex (snd s') = ∅
        ∧ actionCalls (snd s') = [].
Proof.
  eexists. split; [vm_compute; reflexivity|].
  destruct (run_after_abort demo_clock demo_stringify demo_trim
              [Chunk late_thought; Settle 0 (Prepared "foo")]
              (init_stream 1,
               with_pending 0 (TPrepare example_call)
                 (abort (init_ctx false)))
              _ eq_refl eq_refl) as (Ha & Hl & _ & Hc).
  split; [exact Ha|]. split; [exact Hl|exact Hc].
Defined.

Lemma run_rejects_only_unserialisable_demo :
  ∃ s', run demo_clock demo_stringify demo_trim
            [Chunk call_only; Settle 0 (Prepared "foo");
             Settle 1 (Rejected "circular")]
            (init_stream 0, init_ctx false) = Some s'
        ∧ 1 ∈ rejected (snd s')
        ∧ ∀ k, k ∈ rejected (snd s') →
            ∃ err, Settle k (Rejected err)
                   ∈ [Chunk call_only; Settle 0 (Prepared "foo");
                      Settle 1 (Rejected "circular")]
                   ∧ demo_stringify err = None.
Proof.
  eexists. split; [vm_compute; reflexivity|].
  split; [vm_compute; reflexivity|].
  intros k Hk.
  edestruct (run_rejects_only_unserialisable demo_clock demo_stringify
               demo_trim
               [Chunk call_only; Settle 0 (Prepared "foo");
                Settle 1 (Rejected "circular")]
               (init_stream 0, init_ctx false)) as [_ Hch].
  { vm_compute; reflexivity. }
  destruct (Hch k Hk) as [Hin|Hstep]; [|exact Hstep].
  by apply elem_of_empty in Hin.
Defined.
